(** * WowUp: the IPC handlers of the main process

    A shallow embedding of the IPC handlers of [initializeIpcHandlers]
    ([PATH_EXISTS_CHANNEL], [STAT_FILES_CHANNEL], [CURSE_GET_SCAN_RESULTS],
    [WOWUP_GET_SCAN_RESULTS], [DOWNLOAD_FILE_CHANNEL]), of the store
    handlers of [app/stores.ts], of [GetAddonListItemFilePropPipe] and of
    [OptionsWowSectionComponent.addNewClient], and of the scanning core that
    the specification describes.

    Asynchronous code is modelled by its settlements: a promise is either
    still pending, fulfilled with a value or rejected with an error.  The
    [p-limit] queue that the batch handlers build is a small transition
    system whose events are "a queued task is started" and "a running task
    settles"; every interleaving of the real event loop is a run of it. *)

From Stdlib Require Import String Ascii Bool Arith NArith Lia.
From Stdlib Require Import List Permutation Sorted.
Import ListNotations.

Set Implicit Arguments.

(* ================================================================== *)
(** ** Promises and handler bodies *)

(** How a promise ends. *)
Inductive Settled (A E : Type) : Type :=
| Fulfilled (value : A)
| Rejected (error : E).

Arguments Fulfilled {A E} value.
Arguments Rejected {A E} error.

(** What an observer sees of a promise at some instant. *)
Inductive PromiseState (A E : Type) : Type :=
| Pending
| Done (s : Settled A E).

Arguments Pending {A E}.
Arguments Done {A E} s.

(** One call of [log.error]. [log.error(e)] has the empty message. *)
Inductive LogEntry (E : Type) : Type :=
| LogError (message : string) (e : E).

Arguments LogError {E} message e.

(** The body of an [async] handler: it appends to the log and ends
    fulfilled or rejected. *)
Definition Action (E A : Type) : Type :=
  list (LogEntry E) -> Settled A E * list (LogEntry E).

Definition ret {E A} (a : A) : Action E A :=
  fun lg => (Fulfilled a, lg).

Definition throw {E A} (e : E) : Action E A :=
  fun lg => (Rejected e, lg).

Definition bind {E A B} (m : Action E A) (k : A -> Action E B) : Action E B :=
  fun lg =>
    match m lg with
    | (Fulfilled a, lg') => k a lg'
    | (Rejected e, lg') => (Rejected e, lg')
    end.

(** [try { body } catch (e) { handler e }] *)
Definition tryCatch {E A} (body : Action E A) (handler : E -> Action E A)
  : Action E A :=
  fun lg =>
    match body lg with
    | (Fulfilled a, lg') => (Fulfilled a, lg')
    | (Rejected e, lg') => handler e lg'
    end.

(** [await p] for a promise whose settlement is [s]. *)
Definition await {E A} (s : Settled A E) : Action E A :=
  fun lg => (s, lg).

Definition logError {E} (message : string) (e : E) : Action E unit :=
  fun lg => (Fulfilled tt, lg ++ [LogError message e]).

Declare Scope action_scope.
Delimit Scope action_scope with action.
Notation "x <- m ;; k" := (bind m (fun x => k))
  (at level 61, m at next level, right associativity) : action_scope.
Notation "m ;; k" := (bind m (fun _ => k))
  (at level 61, right associativity) : action_scope.

(** Runs a handler body from an empty log. *)
Definition invoke {E A} (h : Action E A) : Settled A E * list (LogEntry E) :=
  h [].

(* ================================================================== *)
(** ** PATH_EXISTS_CHANNEL *)

(** The error object [fs.access] rejects with; the handler reads [e.code]. *)
Record FsError : Type := { code : string; syscall : string }.

Section PathExists.

(** [fs.access(filePath)]: fulfilled when the probe succeeds, rejected with
    a system error otherwise. *)
Variable access : string -> Settled unit FsError.

(** <<
    handle(PATH_EXISTS_CHANNEL, async (evt, filePath: string) => {
      try { await fs.access(filePath); }
      catch (e) { if (e.code !== "ENOENT") { log.error(e); } return false; }
      return true;
    });
    >> *)
Definition handle_PATH_EXISTS_CHANNEL (filePath : string)
  : Action FsError bool :=
  tryCatch
    (await (access filePath) ;; ret true)%action
    (fun e =>
       ((if String.eqb (code e) "ENOENT" then ret tt else logError "" e) ;;
        ret false)%action).

End PathExists.

(* ================================================================== *)
(** ** The p-limit queue of the scan handlers *)

(** One element of [map(filePaths, (folder) => limit(...))]: the position of
    the folder in [filePaths] and the folder. *)
Record Task : Type := { slot : nat; folder : string }.

Fixpoint tasksFrom (i : nat) (filePaths : list string) : list Task :=
  match filePaths with
  | [] => []
  | p :: ps => {| slot := i; folder := p |} :: tasksFrom (S i) ps
  end.

(** [pLimit(concurrency)]: the tasks waiting, first in first out, and the
    tasks started and not yet settled; p-limit's [activeCount] is the
    number of the latter. *)
Record Limiter : Type :=
  { concurrency : nat; queue : list Task; running : list Task }.

Definition activeCount (l : Limiter) : nat := length (running l).

Definition pLimit (c : nat) : Limiter :=
  {| concurrency := c; queue := []; running := [] |}.

(** [limit(fn)]: the call is queued. *)
Definition enqueue (l : Limiter) (t : Task) : Limiter :=
  {| concurrency := concurrency l;
     queue := queue l ++ [t];
     running := running l |}.

(** The check p-limit makes after queuing: the head of the queue is started
    if [activeCount < concurrency]. *)
Definition tryStart (l : Limiter) : option Limiter :=
  match queue l with
  | t :: q =>
      if activeCount l <? concurrency l
      then Some {| concurrency := concurrency l;
                   queue := q;
                   running := running l ++ [t] |}
      else None
  | [] => None
  end.

(** [next()]: a task has settled (either way), its place is given back and
    the head of the queue, if any, is started. [k] is the position of the
    settled task among the running ones. *)
Definition next (k : nat) (l : Limiter) : option (Task * Limiter) :=
  match nth_error (running l) k with
  | Some t =>
      let rest := firstn k (running l) ++ skipn (S k) (running l) in
      Some (t,
            match queue l with
            | t' :: q => {| concurrency := concurrency l;
                            queue := q;
                            running := rest ++ [t'] |}
            | [] => {| concurrency := concurrency l;
                       queue := [];
                       running := rest |}
            end)
  | None => None
  end.

(** A batch call in flight: the limiter and the tasks settled so far, in
    the order in which they settled. *)
Record Batch : Type := { limiter : Limiter; settled : list Task }.

(** The handler's two lines
    [const limit = pLimit(2); const tasks = map(filePaths, ...limit(...))]. *)
Definition scanLimit : nat := 2.

Definition submit (filePaths : list string) : Batch :=
  {| limiter := fold_left enqueue (tasksFrom 0 filePaths) (pLimit scanLimit);
     settled := [] |}.

(** What the event loop can do next. *)
Inductive Event : Type :=
| Start
| Settle (k : nat).

Definition fire (ev : Event) (b : Batch) : option Batch :=
  match ev with
  | Start =>
      match tryStart (limiter b) with
      | Some l => Some {| limiter := l; settled := settled b |}
      | None => None
      end
  | Settle k =>
      match next k (limiter b) with
      | Some (t, l) => Some {| limiter := l; settled := settled b ++ [t] |}
      | None => None
      end
  end.

Fixpoint run (evs : list Event) (b : Batch) : option Batch :=
  match evs with
  | [] => Some b
  | ev :: rest =>
      match fire ev b with
      | Some b' => run rest b'
      | None => None
      end
  end.

Definition step (b b' : Batch) : Prop := exists ev, fire ev b = Some b'.

Inductive reachable (b0 : Batch) : Batch -> Prop :=
| reach_here : reachable b0 b0
| reach_step b b' : reachable b0 b -> step b b' -> reachable b0 b'.

(** Nothing waits and nothing runs. *)
Definition drained (b : Batch) : Prop :=
  queue (limiter b) = [] /\ running (limiter b) = [].

(** What holds of a batch call at every instant: the limit is the one the
    handler chose, no more tasks run than the limit, and every task of the
    call is waiting, running or settled, exactly once. *)
Definition wellFormed (filePaths : list string) (b : Batch) : Prop :=
  concurrency (limiter b) = scanLimit /\
  activeCount (limiter b) <= scanLimit /\
  Permutation (queue (limiter b) ++ running (limiter b) ++ settled b)
              (tasksFrom 0 filePaths).

(** Every event uses up part of a finite budget, so a batch call cannot
    run forever. *)
Definition budget (b : Batch) : nat :=
  2 * length (queue (limiter b)) + length (running (limiter b)).

(* ================================================================== *)
(** ** Promise.all and the two scan handlers *)

Section ScanHandlers.

Variables Res Err : Type.

(** [new CurseFolderScanner().scanFolder(folder)], resp.
    [new WowUpFolderScanner(folder).scanFolder()]: how the promise of one
    folder's scan ends. *)
Variable scanFolder : string -> Settled Res Err.

(** The error of the first task that settled rejected. *)
Fixpoint firstRejection (done : list Task) : option Err :=
  match done with
  | [] => None
  | t :: rest =>
      match scanFolder (folder t) with
      | Rejected e => Some e
      | Fulfilled _ => firstRejection rest
      end
  end.

(** The value of the task of slot [i], once it has settled fulfilled. *)
Definition valueAt (done : list Task) (i : nat) : option Res :=
  match find (fun t => slot t =? i) done with
  | Some t =>
      match scanFolder (folder t) with
      | Fulfilled r => Some r
      | Rejected _ => None
      end
  | None => None
  end.

Fixpoint collect (done : list Task) (slots : list nat) : option (list Res) :=
  match slots with
  | [] => Some []
  | i :: rest =>
      match valueAt done i, collect done rest with
      | Some r, Some rs => Some (r :: rs)
      | _, _ => None
      end
  end.

(** [Promise.all(tasks)] for [n] tasks: rejected as soon as one task is
    rejected, with that task's error; fulfilled with the values in the
    order of [tasks] once all are fulfilled; pending until then. *)
Definition promiseAll (n : nat) (done : list Task)
  : PromiseState (list Res) Err :=
  match firstRejection done with
  | Some e => Done (Rejected e)
  | None =>
      match collect done (seq 0 n) with
      | Some rs => Done (Fulfilled rs)
      | None => Pending
      end
  end.

(** <<
    try { ...; return await Promise.all(tasks); }
    catch (e) { log.error("Failed during curse scan", e); throw e; }
    >> *)
Definition handle_CURSE_GET_SCAN_RESULTS (all : Settled (list Res) Err)
  : Action Err (list Res) :=
  tryCatch (await all)
           (fun e => (logError "Failed during curse scan" e ;; throw e)%action).

(** [return await Promise.all(tasks);] *)
Definition handle_WOWUP_GET_SCAN_RESULTS (all : Settled (list Res) Err)
  : Action Err (list Res) :=
  await all.

(** The batch call on [filePaths] can return [out]: some interleaving
    brings [Promise.all] to a settlement on which the handler body ends
    with [out]. *)
Definition returns (handler : Settled (list Res) Err -> Action Err (list Res))
  (filePaths : list string) (out : Settled (list Res) Err) : Prop :=
  exists b s,
    reachable (submit filePaths) b /\
    promiseAll (length filePaths) (settled b) = Done s /\
    fst (invoke (handler s)) = out.


End ScanHandlers.

(** The two batch scan handlers [initializeIpcHandlers] registers. *)
Definition scanHandlers (Res Err : Type)
  : list (Settled (list Res) Err -> Action Err (list Res)) :=
  [@handle_CURSE_GET_SCAN_RESULTS Res Err;
   @handle_WOWUP_GET_SCAN_RESULTS Res Err].

(** An add-ons directory for the examples: two folders that scan, and
    every other path makes the scan fail as a missing directory does. *)
Definition enoent : FsError := {| code := "ENOENT"; syscall := "scandir" |}.

Definition sampleScan (p : string) : Settled string FsError :=
  if (String.eqb p "AddOns/Details" || String.eqb p "AddOns/WeakAuras")%bool
  then Fulfilled p
  else Rejected enoent.

(* ================================================================== *)
(** ** The scanning core, after the specification

    The handlers import [CurseFolderScanner] from
    [src/common/curse/curse-folder-scanner], whose code is not at hand;
    what follows is written from sections 3, 4 and 6 to 8 of the
    specification. *)

(** Modelled from the spec: a "byte buffer" (section 4.1), the content of
    a file of the missing scanner. *)
Definition Buffer : Type := list ascii.

Definition bytes (s : string) : Buffer := list_ascii_of_string s.

(** *** Folders and files *)

(** Modelled from the spec: the error kinds of section 7 ([Absent] is not
    one of them). *)
Inductive ScanError : Type :=
| NotFound
| IoError
| ParseError.

(** Modelled from the spec: the "file-read primitive" of section 6: the
    bytes of a file, or a read failure. *)
Inductive ReadResult : Type :=
| Content (b : Buffer)
| Unreadable.

(** Modelled from the spec: one file found by the "recursive directory
    enumeration" of section 6: its path relative to the folder, what
    reading it gives, and its modification time. *)
Record FileEntry : Type :=
  { relPath : string; contents : ReadResult; mtime : N }.

(** Modelled from the spec: what step 1 of [scanFolder] (section 4.4)
    enumerates: the files of a folder, in the order the enumeration
    yields them. *)
Definition Folder : Type := list FileEntry.

(** Modelled from the spec: the "in-memory filesystem substitute" of
    section 6, for the filesystem the missing scanner walks: a folder per
    existing path. *)
Definition FileSystem : Type := string -> option Folder.

(** What a scan can see of a file: its path and what reading it gives.
    The modification time, which changes when the same files are written
    again or in another order, is not part of it. *)
Definition onDisk (f : FileEntry) : string * ReadResult :=
  (relPath f, contents f).

Definition isSeparator (c : ascii) : bool :=
  Ascii.eqb c "/" || Ascii.eqb c "\".

(** The last segment of a path. *)
Fixpoint baseName (p : string) : string :=
  match p with
  | EmptyString => EmptyString
  | String c rest =>
      if existsb isSeparator (list_ascii_of_string rest) then baseName rest
      else if isSeparator c then rest
      else p
  end.

(** Modelled from the spec: the "extension" the allow-list of section 3
    is about: the name from its last dot on, or nothing. *)
Fixpoint extension (name : string) : string :=
  match name with
  | EmptyString => EmptyString
  | String c rest =>
      match extension rest with
      | EmptyString => if Ascii.eqb c "." then name else EmptyString
      | ext => ext
      end
  end.

Definition lowerAscii (c : ascii) : ascii :=
  let n := nat_of_ascii c in
  if (65 <=? n) && (n <=? 90) then ascii_of_nat (n + 32) else c.

Fixpoint lowerCase (s : string) : string :=
  match s with
  | EmptyString => EmptyString
  | String c rest => String (lowerAscii c) (lowerCase rest)
  end.

(** Modelled from the spec: the extension of a file, "evaluated
    case-insensitively" (section 3). *)
Definition extensionOf (f : FileEntry) : string :=
  lowerCase (extension (baseName (relPath f))).

(** Modelled from the spec: the hashes "sorted ascending, numeric"
    (section 3), by insertion. *)
Fixpoint insertHash (h : N) (sorted : list N) : list N :=
  match sorted with
  | [] => [h]
  | h' :: rest =>
      if (h <=? h')%N then h :: sorted else h' :: insertHash h rest
  end.

Fixpoint sortHashes (hs : list N) : list N :=
  match hs with
  | [] => []
  | h :: rest => insertHash h (sortHashes rest)
  end.

(** Modelled from the spec: a FileFingerprint (section 3): "(relative
    path, 32-bit unsigned hash) pair". *)
Definition FileFingerprint : Type := (string * N)%type.

(** Modelled from the spec: the FolderFingerprint part of a catalog
    ScanResult (section 3): "one primary fingerprint plus, optionally,
    alternate fingerprints", and "the list of FileFingerprint entries
    used". *)
Record CatalogScan : Type :=
  { fingerprint : N;
    alternates : list N;
    fileFingerprints : list FileFingerprint }.

Section CatalogFolderScanner.

(** The "fixed extension allow-list" of section 3, the file-type hint of
    an extension, and the inclusion filters of the alternate fingerprints
    (section 4.4, step 5); the specification names none of them. *)
Variable allowList : list string.
Variable FileType : Type.
Variable fileTypeOf : string -> FileType.
Variable alternateFilters : list (string -> bool).

(** The Normalizer of section 4.1: "given raw text bytes and a file-type
    hint, returns a normalized byte buffer". Its code is not at hand and
    the specification fixes neither the comment syntax of the dialects
    nor the order of its rules, so the scan takes it as it comes. *)
Variable normalize : FileType -> Buffer -> Buffer.

(** [hashBuffer] and [hashFolder] of section 4.2: "the exact constants"
    are "a fixed external contract" that the specification does not
    give. *)
Variable hashBuffer : Buffer -> N.
Variable hashFolder : list N -> N.

(** Modelled from the spec: step 2 of section 4.4, "filter to ContentFiles
    via the extension allow-list", "evaluated case-insensitively". *)
Definition isContentFile (f : FileEntry) : bool :=
  existsb (fun ext => String.eqb (lowerCase ext) (extensionOf f)) allowList.

(** Modelled from the spec: step 3 of section 4.4 for one file, "read
    bytes, normalize per its type, compute FileFingerprint"; an
    "unreadable individual file aborts that folder's scan with an I/O
    error". *)
Definition fileFingerprint (f : FileEntry)
  : Settled FileFingerprint ScanError :=
  match contents f with
  | Content b =>
      Fulfilled (relPath f,
                 hashBuffer (normalize (fileTypeOf (extensionOf f)) b))
  | Unreadable => Rejected IoError
  end.

Fixpoint fingerprintFiles (files : list FileEntry)
  : Settled (list FileFingerprint) ScanError :=
  match files with
  | [] => Fulfilled []
  | f :: rest =>
      match fileFingerprint f with
      | Rejected e => Rejected e
      | Fulfilled fp =>
          match fingerprintFiles rest with
          | Rejected e => Rejected e
          | Fulfilled fps => Fulfilled (fp :: fps)
          end
      end
  end.

(** Modelled from the spec: step 4 of section 4.4, "sort FileFingerprint
    hashes ascending; compute primary FolderFingerprint". *)
Definition folderFingerprint (fps : list FileFingerprint) : N :=
  hashFolder (sortHashes (map snd fps)).

(** Modelled from the spec: step 5 of section 4.4, the fingerprint of the
    files an alternate inclusion filter keeps. *)
Definition alternateFingerprint (fps : list FileFingerprint)
  (keep : string -> bool) : N :=
  folderFingerprint (filter (fun fp => keep (fst fp)) fps).

(** Modelled from the spec: steps 1 to 5 of [scanFolder] (section 4.4)
    on the files of one folder. *)
Definition scanFiles (folder : Folder) : Settled CatalogScan ScanError :=
  match fingerprintFiles (filter isContentFile folder) with
  | Rejected e => Rejected e
  | Fulfilled fps =>
      Fulfilled {| fingerprint := folderFingerprint fps;
                   alternates := map (alternateFingerprint fps) alternateFilters;
                   fileFingerprints := fps |}
  end.

(** Modelled from the spec: the fingerprinting part of
    [scanFolder(path)] (section 4.4); a path that is no folder is
    [NotFound] (section 7). *)
Definition scanCatalogFolder (fs : FileSystem) (path : string)
  : Settled CatalogScan ScanError :=
  match fs path with
  | None => Rejected NotFound
  | Some folder => scanFiles folder
  end.

(** Modelled from the spec: the FolderFingerprint of a scan result,
    "primary + alternates" (section 3), or the error of the scan. *)
Definition fingerprintsOf (r : Settled CatalogScan ScanError)
  : Settled (N * list N) ScanError :=
  match r with
  | Fulfilled s => Fulfilled (fingerprint s, alternates s)
  | Rejected e => Rejected e
  end.

End CatalogFolderScanner.

(** Two outcomes of step 3 that differ at most in the order of the
    fingerprints. *)
Definition samePrints (r r' : Settled (list FileFingerprint) ScanError)
  : Prop :=
  match r, r' with
  | Fulfilled fps, Fulfilled fps' => Permutation fps fps'
  | Rejected e, Rejected e' => e = e'
  | _, _ => False
  end.

(** *** An add-on folder for the examples *)

Definition sampleAllowList : list string := [".lua"; ".xml"]%string.

(** The file-type hint of the examples: text or not. *)
Definition sampleFileType (ext : string) : bool :=
  String.eqb ext ".lua" || String.eqb ext ".xml".

Definition isWhitespace (c : ascii) : bool :=
  let n := nat_of_ascii c in
  (n =? 32) || ((9 <=? n) && (n <=? 13)).

(** A stand-in for the Normalizer in the examples: the whitespace is
    dropped from text files, other files are left as they are. *)
Definition sampleNormalize (isText : bool) (raw : Buffer) : Buffer :=
  if isText then filter (fun c => negb (isWhitespace c)) raw else raw.

(** One alternate fingerprint, leaving the localization files out (the
    variant section 4.4 gives as its example). *)
Definition sampleAlternateFilters : list (string -> bool) :=
  [fun p => negb (String.prefix "Locales/" p)].

(** A stand-in for the catalog's hash, which the specification does not
    give: a 32-bit polynomial hash of the bytes. *)
Definition sampleHashBuffer (b : Buffer) : N :=
  fold_left (fun h c => ((h * 31 + N_of_ascii c) mod 4294967296)%N) b 1%N.

Definition sampleHashFolder (hs : list N) : N :=
  fold_left (fun h x => ((h * 31 + x) mod 4294967296)%N) hs 1%N.

Definition fooLua : FileEntry :=
  {| relPath := "Foo.lua";
     contents := Content (bytes "-- comment
local x = 1");
     mtime := 1600000000 |}.

Definition coreLua : FileEntry :=
  {| relPath := "Libs/Core.LUA";
     contents := Content (bytes "return 2");
     mtime := 1600000100 |}.

Definition localeLua : FileEntry :=
  {| relPath := "Locales/deDE.lua";
     contents := Content (bytes "L = {}");
     mtime := 1600000300 |}.

Definition readme : FileEntry :=
  {| relPath := "README.md";
     contents := Content (bytes "read me");
     mtime := 1600000200 |}.

(** The same file written at another time. *)
Definition touch (t : N) (f : FileEntry) : FileEntry :=
  {| relPath := relPath f; contents := contents f; mtime := t |}.

(** A disk with the same add-on twice: the copy was written later, file
    by file in another order, and its files are listed in another
    order. *)
Definition sampleDisk : FileSystem :=
  fun path =>
    if String.eqb path "AddOns/Foo"
    then Some [fooLua; readme; localeLua; coreLua]
    else if String.eqb path "Backup/Foo"
    then Some [touch 1700000000 coreLua; touch 1700000300 localeLua;
               touch 1700000100 fooLua; touch 1700000200 readme]
    else None.
(* ================================================================== *)
(** ** The queue at any limit, and STAT_FILES_CHANNEL *)

(** [const limit = pLimit(c); map(items, (x) => limit(...))]: the calls of
    a handler queued on a fresh limiter. *)
Definition submitWith (c : nat) (items : list string) : Batch :=
  {| limiter := fold_left enqueue (tasksFrom 0 items) (pLimit c);
     settled := [] |}.

(** The tasks leave the queue in the order of [items]: a prefix of them has
    been started, and its tasks are the ones that run or have settled. *)
Definition fifo (items : list string) (b : Batch) : Prop :=
  exists started,
    tasksFrom 0 items = started ++ queue (limiter b) /\
    Permutation started (running (limiter b) ++ settled b).

Definition wellFormedAt (c : nat) (items : list string) (b : Batch) : Prop :=
  concurrency (limiter b) = c /\
  activeCount (limiter b) <= c /\
  fifo items b.

(** A task of the call was started before [t], by its place in the input. *)
Definition before (items : list string) (t : Task) : list Task :=
  firstn (slot t) (tasksFrom 0 items).

(** The check that [limit(fn)] schedules once it has queued its call:
    [if (activeCount < concurrency && queue.size > 0) queue.dequeue()();],
    which starts the head of the queue when a place is free and does
    nothing otherwise. *)
Definition startIfFree (l : Limiter) : Limiter :=
  match tryStart l with
  | Some l' => l'
  | None => l
  end.

(** The call once [map] has queued every item and the check of each item
    has run.  The checks come before any settlement: they are scheduled
    while [map] runs, and a call they start settles later than that. *)
Definition launched (c : nat) (items : list string) : Batch :=
  {| limiter := fold_left (fun l _ => startIfFree l) items
                          (limiter (submitWith c items));
     settled := [] |}.

(** No place is free while a call waits. *)
Definition placesFilled (b : Batch) : Prop :=
  queue (limiter b) = [] \/
  activeCount (limiter b) = concurrency (limiter b).

Section LimitedCalls.

Variables Res Err Out : Type.

(** What one queued call settles to, by its item. *)
Variable task : string -> Settled Res Err.

(** A handler that queues one call per item on [pLimit(c)], awaits
    [Promise.all] of them and goes on with [body] can return [out]. *)
Definition returnsWith (c : nat)
  (body : Settled (list Res) Err -> Action Err Out)
  (items : list string) (out : Settled Out Err) : Prop :=
  exists b s,
    reachable (submitWith c items) b /\
    promiseAll task (length items) (settled b) = Done s /\
    fst (invoke (body s)) = out.

(** The item's call is rejected. *)
Definition fails (item : string) : bool :=
  match task item with
  | Rejected _ => true
  | Fulfilled _ => false
  end.

End LimitedCalls.

(** The own properties of a JavaScript object used as a dictionary, by
    key. *)
Definition JsObject (V : Type) : Type := string -> option V.

(** [{}] *)
Definition emptyObject {V : Type} : JsObject V := fun _ => None.

(** [o[k] = v]. The key ["__proto__"] names the prototype accessor of
    [Object.prototype]: assigning an object to it changes the prototype
    and adds no own property. *)
Definition setProperty {V : Type} (o : JsObject V) (k : string) (v : V)
  : JsObject V :=
  if String.eqb k "__proto__" then o
  else fun k' => if String.eqb k' k then Some v else o k'.

Section StatFiles.

Variables Stats Err : Type.

(** [fs.stat(path)] *)
Variable stat : string -> Settled Stats Err.

(** [const limit = pLimit(3);] *)
Definition statLimit : nat := 3.

(** [async () => { const stats = await fs.stat(path);
                   return { path, stats }; }] *)
Definition statTask (path : string) : Settled (string * Stats) Err :=
  fst (invoke (stats <- await (stat path) ;; ret (path, stats))%action).

(** <<
    const taskResults = await Promise.all(tasks);
    taskResults.forEach((r) => (results[r.path] = r.stats));
    return results;
    >> *)
Definition handle_STAT_FILES_CHANNEL (all : Settled (list (string * Stats)) Err)
  : Action Err (JsObject Stats) :=
  (taskResults <- await all ;;
   ret (fold_left (fun results r => setProperty results (fst r) (snd r))
                  taskResults emptyObject))%action.

End StatFiles.

(** What holds of every settled task: of the tasks before it in the input,
    all but fewer than [c] had settled before it. *)
Definition settledInTurn (c : nat) (items : list string) (b : Batch) : Prop :=
  forall j t,
    nth_error (settled b) j = Some t ->
    exists others,
      length others < c /\
      forall t', In t' (before items t) ->
                 In t' (firstn j (settled b)) \/ In t' others.

(** Two files with their sizes; any other path does not exist. *)
Definition sampleStat (path : string) : Settled nat FsError :=
  if String.eqb path "Foo/Foo.toc" then Fulfilled 120
  else if String.eqb path "Foo/Foo.lua" then Fulfilled 4096
  else Rejected enoent.

(* ================================================================== *)
(** ** Handler bodies that also talk to the renderer or the user *)

(** An [async] body whose visible effects are of type [O]: it appends
    effects to the ones so far and ends fulfilled or rejected. *)
Definition Proc (O E A : Type) : Type := list O -> Settled A E * list O.

Definition done {O E A} (a : A) : Proc O E A :=
  fun out => (Fulfilled a, out).

Definition raise {O E A} (e : E) : Proc O E A :=
  fun out => (Rejected e, out).

Definition andThen {O E A B} (m : Proc O E A) (k : A -> Proc O E B)
  : Proc O E B :=
  fun out =>
    match m out with
    | (Fulfilled a, out') => k a out'
    | (Rejected e, out') => (Rejected e, out')
    end.

(** [try { body } catch (err) { handler err }] *)
Definition attempt {O E A} (body : Proc O E A) (handler : E -> Proc O E A)
  : Proc O E A :=
  fun out =>
    match body out with
    | (Fulfilled a, out') => (Fulfilled a, out')
    | (Rejected e, out') => handler e out'
    end.

(** [await p] for a promise that settles to [s]. *)
Definition awaiting {O E A} (s : Settled A E) : Proc O E A :=
  fun out => (s, out).

Definition emit {O E} (o : O) : Proc O E unit :=
  fun out => (Fulfilled tt, out ++ [o]).

Declare Scope proc_scope.
Delimit Scope proc_scope with proc.
Notation "x <- m ;; k" := (andThen m (fun x => k))
  (at level 61, m at next level, right associativity) : proc_scope.
Notation "m ;; k" := (andThen m (fun _ => k))
  (at level 61, right associativity) : proc_scope.

Definition perform {O E A} (p : Proc O E A) : Settled A E * list O := p [].

(** *** DOWNLOAD_FILE_CHANNEL *)

(** The fields of a [DownloadRequest] the listener reads. *)
Record DownloadRequest : Type :=
  { url : string; outputFolder : string; fileName : string;
    responseKey : string }.

(** The members of [DownloadStatusType] the listener uses. *)
Inductive DownloadStatusType : Type :=
| Complete
| Error.

Record DownloadStatus (E : Type) : Type :=
  { type : DownloadStatusType; savePath : option string; error : option E }.

Arguments type {E} d.
Arguments savePath {E} d.
Arguments error {E} d.

(** What the listener lets out: calls of [log.error] and messages to the
    renderer, [window.webContents.send(channel, status)]. *)
Inductive Output (E : Type) : Type :=
| Logged (entry : LogEntry E)
| Sent (channel : string) (status : DownloadStatus E).

Arguments Logged {E} entry.
Arguments Sent {E} channel status.

(** The messages among the outputs, in order. *)
Fixpoint sentMessages {E} (out : list (Output E))
  : list (string * DownloadStatus E) :=
  match out with
  | [] => []
  | Sent channel status :: rest => (channel, status) :: sentMessages rest
  | Logged _ :: rest => sentMessages rest
  end.

(** The body of a listener whose awaited promises need not settle: it
    ends fulfilled or rejected, or it never gets past an [await]. *)
Definition Listener (O E A : Type) : Type :=
  list O -> PromiseState A E * list O.

Definition finished {O E A} (a : A) : Listener O E A :=
  fun out => (Done (Fulfilled a), out).

Definition thrown {O E A} (e : E) : Listener O E A :=
  fun out => (Done (Rejected e), out).

Definition continue {O E A B} (m : Listener O E A) (k : A -> Listener O E B)
  : Listener O E B :=
  fun out =>
    match m out with
    | (Done (Fulfilled a), out') => k a out'
    | (Done (Rejected e), out') => (Done (Rejected e), out')
    | (Pending, out') => (Pending, out')
    end.

(** [try { body } catch (err) { handler err }]: a body that waits for
    ever throws nothing. *)
Definition catching {O E A} (body : Listener O E A)
  (handler : E -> Listener O E A) : Listener O E A :=
  fun out =>
    match body out with
    | (Done (Rejected e), out') => handler e out'
    | other => other
    end.

(** [await p] *)
Definition waitFor {O E A} (p : PromiseState A E) : Listener O E A :=
  fun out => (p, out).

Definition output {O E} (o : O) : Listener O E unit :=
  fun out => (Done (Fulfilled tt), out ++ [o]).

Declare Scope listener_scope.
Delimit Scope listener_scope with listener.
Notation "x <- m ;; k" := (continue m (fun x => k))
  (at level 61, m at next level, right associativity) : listener_scope.
Notation "m ;; k" := (continue m (fun _ => k))
  (at level 61, right associativity) : listener_scope.

Definition listen {O E A} (p : Listener O E A) : PromiseState A E * list O :=
  p [].

Section DownloadFile.

Variables Stream Err : Type.

(** [path.join(a, b)] *)
Variable pathJoin : string -> string -> string.

(** [axios({ url, method: "GET", responseType: "stream" })]: the response
    stream [data], the rejection of the request, or no answer at all (the
    request sets no timeout). *)
Variable axiosGet : string -> PromiseState Stream Err.

(** [fs.createWriteStream(savePath)], [data.pipe(writer)] and the promise
    on the writer: resolved on its "finish" event, rejected on its "error"
    event, and pending as long as neither comes.  [pipe] hands the
    writer neither the end nor an error of a response stream that fails
    or stalls, so the promise can stay pending for ever. *)
Variable pipeTo : Stream -> string -> PromiseState unit Err.

(** What [window.webContents] throws once the window has been destroyed;
    nothing while the window is there. *)
Variable windowGone : option Err.

Definition send (channel : string) (status : DownloadStatus Err)
  : Listener (Output Err) Err unit :=
  match windowGone with
  | None => output (Sent channel status)
  | Some e => thrown e
  end.

(** <<
    ipcMain.on(DOWNLOAD_FILE_CHANNEL, async (evt, arg: DownloadRequest) => {
      try {
        const savePath = path.join(arg.outputFolder, arg.fileName);
        const { data, headers } = await axios({ url: arg.url, ... });
        const writer = fs.createWriteStream(savePath);
        data.pipe(writer);
        await new Promise((resolve, reject) => {
          writer.on("finish", resolve);
          writer.on("error", reject);
        });
        const status = { type: DownloadStatusType.Complete, savePath };
        window.webContents.send(arg.responseKey, status);
      } catch (err) {
        log.error(err);
        const status = { type: DownloadStatusType.Error, error: err };
        window.webContents.send(arg.responseKey, status);
      }
    });
    >> *)
Definition handle_DOWNLOAD_FILE_CHANNEL (arg : DownloadRequest)
  : Listener (Output Err) Err unit :=
  catching
    (let savePath := pathJoin (outputFolder arg) (fileName arg) in
     (data <- waitFor (axiosGet (url arg)) ;;
      waitFor (pipeTo data savePath) ;;
      send (responseKey arg)
           {| type := Complete; savePath := Some savePath;
              error := None |})%listener)
    (fun err =>
       (output (Logged (LogError "" err)) ;;
        send (responseKey arg)
             {| type := Error; savePath := None;
                error := Some err |})%listener).

(** What the listener waits for: the answer to the request and then the
    end of the write. *)
Definition transfer (arg : DownloadRequest) : PromiseState unit Err :=
  match axiosGet (url arg) with
  | Done (Fulfilled data) =>
      pipeTo data (pathJoin (outputFolder arg) (fileName arg))
  | Done (Rejected e) => Done (Rejected e)
  | Pending => Pending
  end.

End DownloadFile.

(* ================================================================== *)
(** ** The store handlers ([app/stores.ts]) *)

(** The error of a failed lookup or call: [undefined] is not iterable,
    [undefined] has no property [toString], [store.get] is not a
    function. *)
Inductive JsError : Type :=
| TypeError.

(** The names every object inherits from [Object.prototype]. *)
Definition objectPrototypeMembers : list string :=
  ["constructor"; "__defineGetter__"; "__defineSetter__"; "hasOwnProperty";
   "__lookupGetter__"; "__lookupSetter__"; "isPrototypeOf";
   "propertyIsEnumerable"; "toString"; "valueOf"; "__proto__";
   "toLocaleString"]%string.

(** What [stores[storeName]] evaluates to. *)
Inductive StoresEntry : Type :=
| TheAddonStore
| ThePreferenceStore
| Inherited
| Missing.

Section Stores.

(** The values that reach the handlers over IPC: strings, the other
    primitives that have a [toString] (booleans, numbers, bigints), and
    objects (arrays among them). *)
Variables Prim Obj : Type.

Inductive Value : Type :=
| VUndefined
| VNull
| VString (s : string)
| VPrimitive (p : Prim)
| VObject (o : Obj).

Variable primToString : Prim -> string.
Variable objectToString : Obj -> string.

(** [typeof value === "object" || Array.isArray(value)] *)
Definition isObject (value : Value) : bool :=
  match value with
  | VNull | VObject _ => true
  | VUndefined | VString _ | VPrimitive _ => false
  end.

(** [value.toString()] *)
Definition toString (value : Value) : Settled string JsError :=
  match value with
  | VUndefined | VNull => Rejected TypeError
  | VString s => Fulfilled s
  | VPrimitive p => Fulfilled (primToString p)
  | VObject o => Fulfilled (objectToString o)
  end.

(** An [electron-store] instance and the methods the handlers call:
    [store.get(key, undefined)], [store.set(key, value)],
    [store.delete(key)] and the iteration [for (const result of store)],
    which yields the pairs [[key, value]].  [set] can refuse: it throws a
    TypeError on a key the store keeps for itself (the ["__internal__"]
    ones) and on a value it cannot write out, and stores nothing then. *)
Variable Store : Type.
Variable storeGet : Store -> string -> Value.
Variable storeSet : Store -> string -> Value -> Settled Store JsError.
Variable storeDelete : Store -> string -> Store.
Variable storeEntries : Store -> list (string * Value).

(** The constants of [src/common/constants]. *)
Variables ADDON_STORE_NAME PREFERENCE_STORE_NAME : string.

(** [addonStore] and [preferenceStore] *)
Record Stores : Type := { addonStore : Store; preferenceStore : Store }.

(** <<
    const stores = { [ADDON_STORE_NAME]: addonStore,
                     [PREFERENCE_STORE_NAME]: preferenceStore };
    const store = stores[storeName];
    >>
    An own key wins, the later one if both names are the same; any other
    name is looked up in [Object.prototype]. *)
Definition lookupStore (storeName : string) : StoresEntry :=
  if String.eqb storeName PREFERENCE_STORE_NAME then ThePreferenceStore
  else if String.eqb storeName ADDON_STORE_NAME then TheAddonStore
  else if existsb (String.eqb storeName) objectPrototypeMembers then Inherited
  else Missing.

(** <<
    const items = [];
    for (const result of store) { const item = result[1]; items.push(item); }
    return items;
    >> *)
Definition handle_IPC_STORE_GET_ALL (stores : Stores) (storeName : string)
  : Settled (list Value) JsError :=
  match lookupStore storeName with
  | TheAddonStore => Fulfilled (map snd (storeEntries (addonStore stores)))
  | ThePreferenceStore =>
      Fulfilled (map snd (storeEntries (preferenceStore stores)))
  | Inherited | Missing => Rejected TypeError
  end.

(** [return store ? store.get(key, undefined) : undefined;] *)
Definition handle_IPC_STORE_GET_OBJECT (stores : Stores)
  (storeName key : string) : Settled Value JsError :=
  match lookupStore storeName with
  | TheAddonStore => Fulfilled (storeGet (addonStore stores) key)
  | ThePreferenceStore => Fulfilled (storeGet (preferenceStore stores) key)
  | Inherited => Rejected TypeError
  | Missing => Fulfilled VUndefined
  end.

(** [store?.m(...)] for a method [m] of the stores: nothing happens without
    a store, and an inherited member has no such method. *)
Definition onStore (stores : Stores) (storeName : string)
  (call : Store -> Settled Store JsError) : Settled unit JsError * Stores :=
  match lookupStore storeName with
  | TheAddonStore =>
      match call (addonStore stores) with
      | Fulfilled s =>
          (Fulfilled tt,
           {| addonStore := s; preferenceStore := preferenceStore stores |})
      | Rejected e => (Rejected e, stores)
      end
  | ThePreferenceStore =>
      match call (preferenceStore stores) with
      | Fulfilled s =>
          (Fulfilled tt,
           {| addonStore := addonStore stores; preferenceStore := s |})
      | Rejected e => (Rejected e, stores)
      end
  | Inherited => (Rejected TypeError, stores)
  | Missing => (Fulfilled tt, stores)
  end.

(** <<
    if (typeof value === "object" || Array.isArray(value)) {
      store?.set(key, value);
    } else {
      store?.set(key, value.toString());
    }
    >> *)
Definition handle_IPC_STORE_SET_OBJECT (stores : Stores)
  (storeName key : string) (value : Value) : Settled unit JsError * Stores :=
  if isObject value then
    onStore stores storeName (fun store => storeSet store key value)
  else
    onStore stores storeName
            (fun store =>
               match toString value with
               | Fulfilled s => storeSet store key (VString s)
               | Rejected e => Rejected e
               end).

(** [store?.delete(key);] *)
Definition handle_IPC_STORE_REMOVE_OBJECT (stores : Stores)
  (storeName key : string) : Settled unit JsError * Stores :=
  onStore stores storeName (fun store => Fulfilled (storeDelete store key)).

(** What a value is kept as by [IPC_STORE_SET_OBJECT]. *)
Definition kept (value : Value) : Value :=
  match value with
  | VPrimitive p => VString (primToString p)
  | _ => value
  end.

(** [stores[storeName]] when the name is one of the two registered. *)
Definition namedStore (stores : Stores) (storeName : string) : option Store :=
  match lookupStore storeName with
  | TheAddonStore => Some (addonStore stores)
  | ThePreferenceStore => Some (preferenceStore stores)
  | Inherited | Missing => None
  end.

End Stores.

Arguments VUndefined {Prim Obj}.
Arguments VNull {Prim Obj}.
Arguments VString {Prim Obj} s.
Arguments VPrimitive {Prim Obj} p.
Arguments VObject {Prim Obj} o.

(** A store kept as the list of its assignments, latest first. *)
Definition listGet {Prim Obj : Type} (s : list (string * Value Prim Obj))
  (key : string) : Value Prim Obj :=
  match find (fun kv => String.eqb (fst kv) key) s with
  | Some kv => snd kv
  | None => VUndefined
  end.

Definition listSet {Prim Obj : Type} (s : list (string * Value Prim Obj))
  (key : string) (value : Value Prim Obj)
  : Settled (list (string * Value Prim Obj)) JsError :=
  if String.prefix "__internal__." key then Rejected TypeError
  else Fulfilled ((key, value) :: s).

Definition listDelete {Prim Obj : Type} (s : list (string * Value Prim Obj))
  (key : string) : list (string * Value Prim Obj) :=
  filter (fun kv => negb (String.eqb (fst kv) key)) s.

Definition boolToString (b : bool) : string :=
  if b then "true"%string else "false"%string.

(* ================================================================== *)
(** ** GetAddonListItemFilePropPipe *)

Section GetAddonListItemFileProp.

(** The values of file properties, with the empty string among them, and
    the add-on channels. *)
Variables JsValue AddonChannelType : Type.
Variable emptyString : JsValue.

(** A file of a search result: its release date, as the time it denotes,
    and its own properties. *)
Record AddonSearchResultFile : Type :=
  { releaseDate : N; ownProperty : string -> option JsValue }.

Record AddonSearchResult : Type := { files : list AddonSearchResultFile }.

Record GetAddonListItem : Type := { searchResult : AddonSearchResult }.

(** [SearchResults.getLatestFile(searchResult, channel)] of
    [utils/search-result.utils]: a file, or nothing. *)
Variable getLatestFile :
  AddonSearchResult -> AddonChannelType -> option AddonSearchResultFile.

(** [_.orderBy(files, "releaseDate", "desc")]: later dates first, files of
    one date in the order they had. *)
Fixpoint insertByReleaseDate (f : AddonSearchResultFile)
  (sorted : list AddonSearchResultFile) : list AddonSearchResultFile :=
  match sorted with
  | [] => [f]
  | g :: rest =>
      if (releaseDate g <=? releaseDate f)%N then f :: sorted
      else g :: insertByReleaseDate f rest
  end.

Fixpoint orderByReleaseDateDesc (fs : list AddonSearchResultFile)
  : list AddonSearchResultFile :=
  match fs with
  | [] => []
  | f :: rest => insertByReleaseDate f (orderByReleaseDateDesc rest)
  end.

(** <<
    let file = SearchResults.getLatestFile(item.searchResult, channel);
    if (!file) {
      file = _.first(_.orderBy(item.searchResult.files, "releaseDate", "desc"));
    }
    return file && Object.prototype.hasOwnProperty.call(file, prop)
      ? file[prop] : "";
    >> *)
Definition transform (item : GetAddonListItem) (prop : string)
  (channel : AddonChannelType) : JsValue :=
  let file :=
    match getLatestFile (searchResult item) channel with
    | Some file => Some file
    | None => hd_error (orderByReleaseDateDesc (files (searchResult item)))
    end in
  match file with
  | Some file =>
      match ownProperty file prop with
      | Some value => value
      | None => emptyString
      end
  | None => emptyString
  end.

End GetAddonListItemFileProp.

Arguments releaseDate {JsValue} a.
Arguments ownProperty {JsValue} a.
Arguments files {JsValue} a.
Arguments searchResult {JsValue} g.

(** A search result with three files, the last two released together. *)
Definition sampleItem : GetAddonListItem string :=
  {| searchResult :=
       {| files :=
            [ {| releaseDate := 20201101;
                 ownProperty := fun _ => Some "1.0"%string |};
              {| releaseDate := 20210305;
                 ownProperty := fun _ => Some "2.0"%string |};
              {| releaseDate := 20210305;
                 ownProperty := fun _ => None |} ] |} |}.

(* ================================================================== *)
(** ** OptionsWowSectionComponent: adding a client by hand *)

Section OptionsWowSection.

Variables WowInstallation Err : Type.

(** [this._warcraftInstallationService.selectWowClientPath()]: the path
    the user picked, or nothing. *)
Variable selectWowClientPath : Settled (option string) Err.

(** [this._warcraftService.isWowApplication(selectedPath)] *)
Variable isWowApplication : string -> Settled bool Err.

(** [this._warcraftInstallationService.createWowInstallationForPath(...)] *)
Variable createWowInstallationForPath : string -> Settled WowInstallation Err.

(** [this._translateService.instant(key, { selectedPath })] *)
Variable instant : string -> option string -> string.

(** The second argument of a [console.log]. *)
Inductive Logged3 : Type :=
| LoggedPath (selectedPath : string)
| LoggedAnswer (isWowApplication : bool)
| LoggedInstallation (wowInstallation : WowInstallation).

(** What the component lets out. *)
Inductive UiEffect : Type :=
| ConsoleLog (label : string) (what : Logged3)
| ConsoleError (error : Err)
| DialogOpen (title message : string)
| AddInstallation (wowInstallation : WowInstallation).

(** <<
    const title = this._translateService.instant("DIALOGS.ALERT.ERROR_TITLE");
    this._dialog.open(AlertDialogComponent, { data: { title, message } });
    >> *)
Definition showError (message : string) : Proc UiEffect Err unit :=
  emit (DialogOpen (instant "DIALOGS.ALERT.ERROR_TITLE" None) message).

Definition showInvalidWowApplication (selectedPath : string)
  : Proc UiEffect Err unit :=
  showError
    (instant "DIALOGS.SELECT_INSTALLATION.INVALID_INSTALLATION_PATH"
             (Some selectedPath)).

(** <<
    const selectedPath = await ...selectWowClientPath();
    if (!selectedPath) { return; }
    console.log("dialogResult", selectedPath);
    const isWowApplication = await ...isWowApplication(selectedPath);
    if (!isWowApplication) {
      this.showInvalidWowApplication(selectedPath);
      return;
    }
    console.log("isWowApplication", isWowApplication);
    const wowInstallation = await ...createWowInstallationForPath(selectedPath);
    console.log("wowInstallation", wowInstallation);
    this._warcraftInstallationService.addInstallation(wowInstallation);
    >>
    [!selectedPath] holds of no path and of the empty path. *)
Definition addNewClient : Proc UiEffect Err unit :=
  (selectedPath <- awaiting selectWowClientPath ;;
   match selectedPath with
   | None => done tt
   | Some path =>
       if String.eqb path "" then done tt
       else
         emit (ConsoleLog "dialogResult" (LoggedPath path)) ;;
         answer <- awaiting (isWowApplication path) ;;
         if negb answer then showInvalidWowApplication path
         else
           emit (ConsoleLog "isWowApplication" (LoggedAnswer answer)) ;;
           wowInstallation <- awaiting (createWowInstallationForPath path) ;;
           emit (ConsoleLog "wowInstallation"
                            (LoggedInstallation wowInstallation)) ;;
           emit (AddInstallation wowInstallation)
   end)%proc.

(** <<
    from(this.addNewClient())
      .pipe(catchError((error) => { console.error(error);
                                    return of(undefined); }))
      .subscribe();
    >> *)
Definition onAddNew : Proc UiEffect Err unit :=
  attempt addNewClient (fun error => emit (ConsoleError error)).

End OptionsWowSection.

Arguments ConsoleLog {WowInstallation Err} label what.
Arguments ConsoleError {WowInstallation Err} error.
Arguments DialogOpen {WowInstallation Err} title message.
Arguments AddInstallation {WowInstallation Err} wowInstallation.

(* ================================================================== *)
(** * Properties of the handlers *)

Unset Implicit Arguments.

(** ** PATH_EXISTS_CHANNEL *)

Lemma path_exists_fulfilled access filePath :
  access filePath = Fulfilled tt ->
  invoke (handle_PATH_EXISTS_CHANNEL access filePath) = (Fulfilled true, []).
Proof.
  intros Hok. unfold invoke, handle_PATH_EXISTS_CHANNEL, tryCatch, bind, await.
  rewrite Hok. reflexivity.
Qed.

Lemma path_exists_rejected access filePath e :
  access filePath = Rejected e ->
  invoke (handle_PATH_EXISTS_CHANNEL access filePath) =
  (Fulfilled false,
   if String.eqb (code e) "ENOENT" then [] else [LogError "" e]).
Proof.
  intros Hko. unfold invoke, handle_PATH_EXISTS_CHANNEL, tryCatch, bind, await.
  rewrite Hko. destruct (String.eqb (code e) "ENOENT"); reflexivity.
Qed.

(** ** The queue *)

Lemma task_eq_dec (t t' : Task) : {t = t'} + {t <> t'}.
Proof. decide equality; [apply string_dec | apply Nat.eq_dec]. Defined.

(** Permutations of task lists are settled by counting. *)
Ltac count_tasks :=
  apply (Permutation_count_occ task_eq_dec); intros ?x;
  repeat (rewrite ?count_occ_app; cbn [count_occ]);
  repeat match goal with
         | |- context [task_eq_dec ?a ?b] => destruct (task_eq_dec a b)
         end;
  lia.

Lemma fold_enqueue ts l :
  fold_left enqueue ts l =
  {| concurrency := concurrency l;
     queue := queue l ++ ts;
     running := running l |}.
Proof.
  revert l. induction ts as [|t ts IH]; intros l; cbn.
  - rewrite app_nil_r. destruct l; reflexivity.
  - rewrite IH. cbn. rewrite <- app_assoc. reflexivity.
Qed.

Lemma submit_limiter filePaths :
  limiter (submit filePaths) =
  {| concurrency := scanLimit;
     queue := tasksFrom 0 filePaths;
     running := [] |}.
Proof. unfold submit. cbn. rewrite fold_enqueue. reflexivity. Qed.

Lemma nth_error_lt (r : list Task) k t :
  nth_error r k = Some t -> k < length r.
Proof. intros Hk. apply nth_error_Some. congruence. Qed.

Lemma take_out (r : list Task) k t :
  nth_error r k = Some t ->
  Permutation r (t :: firstn k r ++ skipn (S k) r) /\
  length (firstn k r ++ skipn (S k) r) = pred (length r).
Proof.
  revert r. induction k as [|k IH]; intros [|a r] Hk; try discriminate;
    cbn in *.
  - injection Hk as ->. split; reflexivity.
  - destruct (IH r Hk) as [Hp Hl]. split.
    + rewrite Hp at 1. apply perm_swap.
    + rewrite Hl. apply nth_error_lt in Hk. lia.
Qed.

Lemma wellFormed_submit filePaths : wellFormed filePaths (submit filePaths).
Proof.
  unfold wellFormed. rewrite submit_limiter. cbn.
  repeat split; [unfold scanLimit; lia|].
  rewrite app_nil_r. reflexivity.
Qed.

Lemma wellFormed_step filePaths b b' :
  wellFormed filePaths b -> step b b' -> wellFormed filePaths b'.
Proof.
  intros (Hc & Hn & Hp) [ev Hev].
  destruct b as [[c q r] d]. unfold activeCount in Hn.
  cbn [limiter settled concurrency queue running] in *. subst c.
  destruct ev as [|k]; unfold fire, tryStart, next, activeCount in Hev;
    cbn [limiter settled concurrency queue running] in Hev.
  - destruct q as [|t q]; [discriminate|].
    destruct (length r <? scanLimit) eqn:Hlt; [|discriminate].
    apply Nat.ltb_lt in Hlt. injection Hev as <-.
    unfold wellFormed, activeCount.
    cbn [limiter settled concurrency queue running].
    repeat split.
    + rewrite length_app. cbn [length]. lia.
    + etransitivity; [|exact Hp]. count_tasks.
  - destruct (nth_error r k) as [t|] eqn:Hk; [|discriminate].
    destruct (take_out r k t Hk) as [Hperm Hlen].
    assert (Hpos : 0 < length r).
    { apply nth_error_lt in Hk. lia. }
    set (rest := firstn k r ++ skipn (S k) r) in *.
    assert (Hp' : Permutation (q ++ (t :: rest) ++ d) (tasksFrom 0 filePaths)).
    { etransitivity; [|exact Hp].
      apply Permutation_app_head, Permutation_app_tail. symmetry. exact Hperm. }
    destruct q as [|t' q]; injection Hev as <-;
      unfold wellFormed, activeCount;
      cbn [limiter settled concurrency queue running]; repeat split.
    + lia.
    + etransitivity; [|exact Hp']. count_tasks.
    + rewrite length_app. cbn [length]. lia.
    + etransitivity; [|exact Hp']. count_tasks.
Qed.

Lemma wellFormed_reachable filePaths b :
  reachable (submit filePaths) b -> wellFormed filePaths b.
Proof.
  induction 1 as [|b b' _ IH Hstep].
  - apply wellFormed_submit.
  - exact (wellFormed_step _ _ _ IH Hstep).
Qed.

Lemma step_budget b b' : step b b' -> budget b' < budget b.
Proof.
  intros [ev Hev]. destruct b as [[c q r] d].
  destruct ev as [|k]; unfold fire, tryStart, next, activeCount in Hev;
    cbn [limiter settled concurrency queue running] in Hev.
  - destruct q as [|t q]; [discriminate|].
    destruct (length r <? c); [|discriminate].
    injection Hev as <-. unfold budget.
    cbn [limiter settled concurrency queue running].
    rewrite length_app. cbn [length]. lia.
  - destruct (nth_error r k) as [t|] eqn:Hk; [|discriminate].
    destruct (take_out r k t Hk) as [_ Hlen].
    apply nth_error_lt in Hk.
    set (rest := firstn k r ++ skipn (S k) r) in *.
    destruct q as [|t' q]; injection Hev as <-; unfold budget;
      cbn [limiter settled concurrency queue running];
      rewrite ?length_app; cbn [length]; lia.
Qed.

(** As long as a task waits or runs, some event can fire. *)
Lemma progress filePaths b :
  wellFormed filePaths b -> drained b \/ exists b', step b b'.
Proof.
  intros (Hc & _ & _). destruct b as [[c q r] d].
  cbn [limiter concurrency] in Hc. subst c.
  destruct r as [|t r].
  - destruct q as [|t q].
    + left. split; reflexivity.
    + right. eexists. exists Start. reflexivity.
  - right. eexists. exists (Settle 0). unfold fire, next.
    cbn [limiter settled concurrency queue running nth_error].
    reflexivity.
Qed.

(** A run is never longer than twice the number of folders. *)
Lemma run_budget evs b b' :
  run evs b = Some b' -> length evs + budget b' <= budget b.
Proof.
  revert b. induction evs as [|ev rest IH]; intros b; cbn [run length].
  - intros [= <-]. lia.
  - destruct (fire ev b) as [b1|] eqn:Hf; [|discriminate].
    intros Hrun. apply IH in Hrun.
    assert (Hs : step b b1).
    { exists ev. exact Hf. }
    apply step_budget in Hs. lia.
Qed.

Lemma tasksFrom_length i filePaths :
  length (tasksFrom i filePaths) = length filePaths.
Proof.
  revert i. induction filePaths as [|p ps IH]; intros i; cbn; [reflexivity|].
  rewrite IH. reflexivity.
Qed.

Lemma run_length evs filePaths b :
  run evs (submit filePaths) = Some b -> length evs <= 2 * length filePaths.
Proof.
  intros Hrun. apply run_budget in Hrun. unfold budget in Hrun at 2.
  rewrite submit_limiter in Hrun. cbn [queue running length] in Hrun.
  rewrite tasksFrom_length in Hrun. lia.
Qed.

Lemma drains_within n filePaths b :
  budget b <= n ->
  reachable (submit filePaths) b ->
  exists b', reachable (submit filePaths) b' /\ drained b'.
Proof.
  revert b. induction n as [|n IH]; intros b Hn Hb.
  - destruct (progress _ _ (wellFormed_reachable _ _ Hb)) as [Hd | [b' Hs]].
    + exists b. split; assumption.
    + apply step_budget in Hs. lia.
  - destruct (progress _ _ (wellFormed_reachable _ _ Hb)) as [Hd | [b' Hs]].
    + exists b. split; assumption.
    + apply (IH b').
      * apply step_budget in Hs. lia.
      * exact (reach_step Hb Hs).
Qed.

(** Some interleaving runs the batch call to its end. *)
Lemma drains filePaths :
  exists b, reachable (submit filePaths) b /\ drained b.
Proof. exact (drains_within _ _ _ (le_n _) (reach_here _)). Qed.

Lemma drained_all_settled filePaths b :
  reachable (submit filePaths) b -> drained b ->
  Permutation (settled b) (tasksFrom 0 filePaths).
Proof.
  intros Hb [Hq Hr]. destruct (wellFormed_reachable _ _ Hb) as (_ & _ & Hp).
  rewrite Hq, Hr in Hp. exact Hp.
Qed.

(** ** The tasks of a call *)

Lemma tasksFrom_In i filePaths t :
  In t (tasksFrom i filePaths) <->
  i <= slot t /\ nth_error filePaths (slot t - i) = Some (folder t).
Proof.
  revert i. induction filePaths as [|p ps IH]; intros i; cbn [tasksFrom In].
  - split; [tauto|]. intros [_ H]. destruct (slot t - i); discriminate.
  - rewrite IH. split.
    + intros [<- | [Hle Hnth]]; cbn [slot folder].
      * rewrite Nat.sub_diag. split; [lia | reflexivity].
      * split; [lia|]. replace (slot t - i) with (S (slot t - S i)) by lia.
        exact Hnth.
    + intros [Hle Hnth]. destruct (Nat.eq_dec (slot t) i) as [He | Hne].
      * left. rewrite He, Nat.sub_diag in Hnth. cbn in Hnth.
        destruct t as [s f]. cbn in *. congruence.
      * right. split; [lia|].
        replace (slot t - i) with (S (slot t - S i)) in Hnth by lia.
        exact Hnth.
Qed.

Lemma tasksOf_In filePaths t :
  In t (tasksFrom 0 filePaths) <->
  nth_error filePaths (slot t) = Some (folder t).
Proof.
  rewrite tasksFrom_In, Nat.sub_0_r. split; [tauto | split; [lia | assumption]].
Qed.

Lemma settled_are_tasks filePaths b t :
  reachable (submit filePaths) b -> In t (settled b) ->
  nth_error filePaths (slot t) = Some (folder t).
Proof.
  intros Hb Ht. destruct (wellFormed_reachable _ _ Hb) as (_ & _ & Hp).
  apply tasksOf_In. apply (Permutation_in _ Hp).
  rewrite !in_app_iff. tauto.
Qed.

(** ** Promise.all over the settled tasks *)

Section PromiseAllFacts.

Variables Res Err : Type.
Variable scanFolder : string -> Settled Res Err.

Lemma firstRejection_some done e :
  firstRejection scanFolder done = Some e ->
  exists t, In t done /\ scanFolder (folder t) = Rejected e.
Proof.
  induction done as [|t rest IH]; cbn; [discriminate|].
  destruct (scanFolder (folder t)) as [r|e'] eqn:Ht.
  - intros H. destruct (IH H) as (t' & Hin & Hrej). exists t'. tauto.
  - intros [= <-]. exists t. tauto.
Qed.

Lemma firstRejection_none done t :
  firstRejection scanFolder done = None -> In t done ->
  exists r, scanFolder (folder t) = Fulfilled r.
Proof.
  induction done as [|t' rest IH]; cbn; [tauto|].
  destruct (scanFolder (folder t')) as [r|e] eqn:Ht'; [|discriminate].
  intros H [<- | Hin]; [exists r; exact Ht' | exact (IH H Hin)].
Qed.

Lemma firstRejection_found done t e :
  In t done -> scanFolder (folder t) = Rejected e ->
  exists e', firstRejection scanFolder done = Some e'.
Proof.
  intros Hin Hrej. destruct (firstRejection scanFolder done) as [e'|] eqn:H.
  - exists e'. reflexivity.
  - destruct (firstRejection_none _ _ H Hin) as [r Hr]. congruence.
Qed.


Lemma valueAt_some done i r :
  valueAt scanFolder done i = Some r ->
  exists t, In t done /\ slot t = i /\ scanFolder (folder t) = Fulfilled r.
Proof.
  unfold valueAt.
  destruct (find (fun t => slot t =? i) done) as [t|] eqn:Hf; [|discriminate].
  apply find_some in Hf. destruct Hf as [Hin Hs]. apply Nat.eqb_eq in Hs.
  destruct (scanFolder (folder t)) as [r'|] eqn:Ht; [|discriminate].
  intros [= <-]. exists t. tauto.
Qed.

Lemma collect_length done slots rs :
  collect scanFolder done slots = Some rs -> length rs = length slots.
Proof.
  revert rs. induction slots as [|i rest IH]; intros rs; cbn.
  - intros [= <-]. reflexivity.
  - destruct (valueAt scanFolder done i); [|discriminate].
    destruct (collect scanFolder done rest); [|discriminate].
    intros [= <-]. cbn. f_equal. apply IH. reflexivity.
Qed.

Lemma collect_nth done slots rs j i :
  collect scanFolder done slots = Some rs ->
  nth_error slots j = Some i ->
  exists r, nth_error rs j = Some r /\ valueAt scanFolder done i = Some r.
Proof.
  revert rs j. induction slots as [|i' rest IH]; intros rs j; cbn.
  - destruct j; discriminate.
  - destruct (valueAt scanFolder done i') as [r'|] eqn:Hv; [|discriminate].
    destruct (collect scanFolder done rest) as [rs'|]; [|discriminate].
    intros [= <-]. destruct j as [|j]; cbn.
    + intros [= <-]. exists r'. tauto.
    + apply IH. reflexivity.
Qed.

Lemma collect_total done slots :
  (forall i, In i slots -> exists r, valueAt scanFolder done i = Some r) ->
  exists rs, collect scanFolder done slots = Some rs.
Proof.
  induction slots as [|i rest IH]; intros Hall; cbn.
  - exists []. reflexivity.
  - destruct (Hall i (or_introl eq_refl)) as [r ->].
    destruct IH as [rs ->]; [intros; apply Hall; right; assumption|].
    exists (r :: rs). reflexivity.
Qed.

(** Once every task has settled, the slot of a fulfilled folder holds its
    result. *)
Lemma valueAt_drained filePaths b i p r :
  reachable (submit filePaths) b -> drained b ->
  nth_error filePaths i = Some p -> scanFolder p = Fulfilled r ->
  valueAt scanFolder (settled b) i = Some r.
Proof.
  intros Hb Hd Hp Hr. unfold valueAt.
  destruct (find (fun t => slot t =? i) (settled b)) as [t|] eqn:Hf.
  - apply find_some in Hf. destruct Hf as [Hin Hs]. apply Nat.eqb_eq in Hs.
    pose proof (settled_are_tasks _ _ _ Hb Hin) as Ht. rewrite Hs, Hp in Ht.
    injection Ht as <-. rewrite Hr. reflexivity.
  - exfalso. pose proof (drained_all_settled _ _ Hb Hd) as Hperm.
    assert (Hin : In {| slot := i; folder := p |} (settled b)).
    { apply (Permutation_in _ (Permutation_sym Hperm)).
      apply tasksOf_In. exact Hp. }
    apply (find_none _ _ Hf) in Hin. cbn in Hin.
    rewrite Nat.eqb_refl in Hin. discriminate.
Qed.

(** A fulfilled [Promise.all] holds one result per path, in place. *)
Lemma promiseAll_fulfilled filePaths b rs :
  reachable (submit filePaths) b ->
  promiseAll scanFolder (length filePaths) (settled b) = Done (Fulfilled rs) ->
  length rs = length filePaths /\
  forall i p, nth_error filePaths i = Some p ->
              exists r, nth_error rs i = Some r /\ scanFolder p = Fulfilled r.
Proof.
  intros Hb. unfold promiseAll.
  destruct (firstRejection scanFolder (settled b)); [discriminate|].
  destruct (collect scanFolder (settled b) (seq 0 (length filePaths)))
    as [rs'|] eqn:Hc; [|discriminate].
  intros [= <-]. split.
  - rewrite (collect_length _ _ _ Hc). apply length_seq.
  - intros i p Hp.
    assert (Hi : i < length filePaths) by (apply nth_error_Some; congruence).
    assert (Hs : nth_error (seq 0 (length filePaths)) i = Some i).
    { rewrite nth_error_seq. apply Nat.ltb_lt in Hi. rewrite Hi. reflexivity. }
    destruct (collect_nth _ _ _ _ _ Hc Hs) as (r & Hr & Hv).
    destruct (valueAt_some _ _ _ Hv) as (t & Hin & Hslot & Hok).
    pose proof (settled_are_tasks _ _ _ Hb Hin) as Ht. rewrite Hslot, Hp in Ht.
    injection Ht as ->. exists r. tauto.
Qed.

(** A rejected [Promise.all] carries the error of one of the folders. *)
Lemma promiseAll_rejected filePaths b e :
  reachable (submit filePaths) b ->
  promiseAll scanFolder (length filePaths) (settled b) = Done (Rejected e) ->
  exists p, In p filePaths /\ scanFolder p = Rejected e.
Proof.
  intros Hb. unfold promiseAll.
  destruct (firstRejection scanFolder (settled b)) as [e'|] eqn:Hf.
  - intros [= <-]. destruct (firstRejection_some _ _ Hf) as (t & Hin & Hrej).
    exists (folder t). split; [|exact Hrej].
    exact (nth_error_In _ _ (settled_are_tasks _ _ _ Hb Hin)).
  - destruct (collect _ _ _); discriminate.
Qed.

(** With every folder fulfilled, a drained call has [Promise.all]
    fulfilled. *)
Lemma promiseAll_drained_fulfilled filePaths b :
  reachable (submit filePaths) b -> drained b ->
  (forall p, In p filePaths -> exists r, scanFolder p = Fulfilled r) ->
  exists rs,
    promiseAll scanFolder (length filePaths) (settled b) = Done (Fulfilled rs).
Proof.
  intros Hb Hd Hall. unfold promiseAll.
  destruct (firstRejection scanFolder (settled b)) as [e|] eqn:Hf.
  - destruct (firstRejection_some _ _ Hf) as (t & Hin & Hrej).
    apply (settled_are_tasks _ _ _ Hb), nth_error_In, Hall in Hin.
    destruct Hin as [r Hr]. congruence.
  - destruct (collect_total (settled b) (seq 0 (length filePaths)))
      as [rs ->].
    + intros i Hi. apply in_seq in Hi.
      destruct (nth_error filePaths i) as [p|] eqn:Hp.
      * destruct (Hall p (nth_error_In _ _ Hp)) as [r Hr].
        exists r. exact (valueAt_drained _ _ _ _ _ Hb Hd Hp Hr).
      * apply nth_error_None in Hp. lia.
    + exists rs. reflexivity.
Qed.

(** With some folder rejected, a drained call has [Promise.all]
    rejected. *)
Lemma promiseAll_drained_rejected filePaths b p e :
  reachable (submit filePaths) b -> drained b ->
  In p filePaths -> scanFolder p = Rejected e ->
  exists e',
    promiseAll scanFolder (length filePaths) (settled b) = Done (Rejected e').
Proof.
  intros Hb Hd Hin Hrej. apply In_nth_error in Hin. destruct Hin as [i Hi].
  assert (Ht : In {| slot := i; folder := p |} (settled b)).
  { apply (Permutation_in _ (Permutation_sym (drained_all_settled _ _ Hb Hd))).
    apply tasksOf_In. exact Hi. }
  destruct (firstRejection_found _ _ _ Ht Hrej) as [e' He'].
  exists e'. unfold promiseAll. rewrite He'. reflexivity.
Qed.


(** Both handler bodies hand the settlement of [Promise.all] on as it is;
    the Curse handler logs a rejection first. *)
Lemma curse_handler_outcome (s : Settled (list Res) Err) :
  invoke (handle_CURSE_GET_SCAN_RESULTS s) =
  (s, match s with
      | Fulfilled _ => []
      | Rejected e => [LogError "Failed during curse scan"%string e]
      end).
Proof. destruct s; reflexivity. Qed.

Lemma wowup_handler_outcome (s : Settled (list Res) Err) :
  invoke (handle_WOWUP_GET_SCAN_RESULTS s) = (s, []).
Proof. reflexivity. Qed.

End PromiseAllFacts.

(** ** What the scan handlers return *)

Section ScanHandlerFacts.

Variables Res Err : Type.
Variable scanFolder : string -> Settled Res Err.

Lemma returns_iff handler filePaths out :
  In handler (scanHandlers Res Err) ->
  returns scanFolder handler filePaths out <->
  exists b, reachable (submit filePaths) b /\
            promiseAll scanFolder (length filePaths) (settled b) = Done out.
Proof.
  intros Hh. unfold returns. split.
  - intros (b & s & Hb & Hs & Hout). exists b. split; [exact Hb|].
    destruct Hh as [<- | [<- | []]].
    + rewrite curse_handler_outcome in Hout. cbn in Hout. congruence.
    + rewrite wowup_handler_outcome in Hout. cbn in Hout. congruence.
  - intros (b & Hb & Hs). exists b, out. repeat split; try assumption.
    destruct Hh as [<- | [<- | []]].
    + rewrite curse_handler_outcome. reflexivity.
    + rewrite wowup_handler_outcome. reflexivity.
Qed.


Lemma returns_some_rejection handler filePaths p e :
  In handler (scanHandlers Res Err) ->
  In p filePaths -> scanFolder p = Rejected e ->
  exists e', returns scanFolder handler filePaths (Rejected e').
Proof.
  intros Hh Hin Hrej. destruct (drains filePaths) as (b & Hb & Hd).
  destruct (promiseAll_drained_rejected _ _ scanFolder _ _ _ _ Hb Hd Hin Hrej)
    as [e' He'].
  exists e'. apply (returns_iff _ _ _ Hh). exists b. tauto.
Qed.

Lemma returns_all_results handler filePaths :
  In handler (scanHandlers Res Err) ->
  (forall p, In p filePaths -> exists r, scanFolder p = Fulfilled r) ->
  exists rs, returns scanFolder handler filePaths (Fulfilled rs).
Proof.
  intros Hh Hall. destruct (drains filePaths) as (b & Hb & Hd).
  destruct (promiseAll_drained_fulfilled _ _ scanFolder _ _ Hb Hd Hall)
    as [rs Hrs].
  exists rs. apply (returns_iff _ _ _ Hh). exists b. tauto.
Qed.

Lemma returned_results_positional handler filePaths rs :
  In handler (scanHandlers Res Err) ->
  returns scanFolder handler filePaths (Fulfilled rs) ->
  length rs = length filePaths /\
  forall i p, nth_error filePaths i = Some p ->
              exists r, nth_error rs i = Some r /\ scanFolder p = Fulfilled r.
Proof.
  intros Hh Hret. apply (returns_iff _ _ _ Hh) in Hret.
  destruct Hret as (b & Hb & Hs).
  exact (promiseAll_fulfilled _ _ scanFolder _ _ _ Hb Hs).
Qed.



End ScanHandlerFacts.

Lemma run_reachable evs b0 b : run evs b0 = Some b -> reachable b0 b.
Proof.
  intros Hrun.
  assert (H : forall b1, reachable b0 b1 -> run evs b1 = Some b ->
                         reachable b0 b).
  { clear Hrun. induction evs as [|ev rest IH]; intros b1 Hb1; cbn.
    - intros [= <-]. exact Hb1.
    - destruct (fire ev b1) as [b2|] eqn:Hf; [|discriminate].
      apply IH. apply (reach_step Hb1). exists ev. exact Hf. }
  exact (H b0 (reach_here b0) Hrun).
Qed.

(* ================================================================== *)
(** * The claims about the handlers *)

(** C10. The path-existence handler never rejects: it is fulfilled with
    [true] when [fs.access] succeeds and with [false] when [fs.access]
    fails, whatever the error; the error is logged unless its code is
    ENOENT. *)
Theorem path_exists_total (access : string -> Settled unit FsError)
  (filePath : string) :
  invoke (handle_PATH_EXISTS_CHANNEL access filePath) =
  match access filePath with
  | Fulfilled _ => (Fulfilled true, [])
  | Rejected e =>
      (Fulfilled false,
       if String.eqb (code e) "ENOENT" then [] else [LogError ""%string e])
  end.
Proof.
  destruct (access filePath) as [[]|e] eqn:Ha.
  - exact (path_exists_fulfilled access filePath Ha).
  - exact (path_exists_rejected access filePath e Ha).
Qed.

(** C9. At every instant of every batch call, whatever the number of
    folders, at most two scan tasks are running; every task of the call
    is waiting in the queue, running or settled; and a task enters the
    running set only from the head of the queue, either while fewer than
    two tasks run or in the step in which a running task settles. *)
Theorem scan_tasks_bounded (filePaths : list string) (b : Batch) :
  reachable (submit filePaths) b ->
  scanLimit = 2 /\
  activeCount (limiter b) <= scanLimit /\
  Permutation (queue (limiter b) ++ running (limiter b) ++ settled b)
              (tasksFrom 0 filePaths) /\
  forall ev b' t,
    fire ev b = Some b' ->
    In t (running (limiter b')) -> ~ In t (running (limiter b)) ->
    hd_error (queue (limiter b)) = Some t /\
    (activeCount (limiter b) < scanLimit \/ exists k, ev = Settle k).
Proof.
  intros Hb. destruct (wellFormed_reachable _ _ Hb) as (Hc & Hn & Hp).
  split; [reflexivity|]. split; [exact Hn|]. split; [exact Hp|].
  intros ev b' t Hev Hnew Hold. destruct b as [[c q r] d].
  destruct ev as [|k]; unfold fire, tryStart, next, activeCount in *;
    cbn [limiter settled concurrency queue running] in *; subst c.
  - destruct q as [|t0 q]; [discriminate|].
    destruct (length r <? scanLimit) eqn:Hlt; [|discriminate].
    apply Nat.ltb_lt in Hlt. injection Hev as <-.
    cbn [limiter running] in Hnew. apply in_app_or in Hnew.
    destruct Hnew as [Hr | [<- | []]]; [contradiction|].
    split; [reflexivity | left; exact Hlt].
  - destruct (nth_error r k) as [t0|] eqn:Hk; [|discriminate].
    destruct (take_out r k t0 Hk) as [Hperm _].
    assert (Hrest : In t (firstn k r ++ skipn (S k) r) -> False).
    { intros Hin. apply Hold. apply (Permutation_in _ (Permutation_sym Hperm)).
      right. exact Hin. }
    destruct q as [|t' q]; injection Hev as <-;
      cbn [limiter running] in Hnew.
    + contradiction.
    + apply in_app_or in Hnew. destruct Hnew as [Hin | [<- | []]];
        [contradiction|].
      split; [reflexivity | right; exists k; reflexivity].
Qed.

(** Three folders, two started: the third waits. *)
Lemma scan_tasks_bounded_witness :
  run [Start; Start] (submit ["a"; "b"; "c"]%string) =
  Some {| limiter :=
            {| concurrency := 2;
               queue := [{| slot := 2; folder := "c" |}];
               running := [{| slot := 0; folder := "a" |};
                           {| slot := 1; folder := "b" |}] |};
          settled := [] |} /\
  run [Start; Start; Start] (submit ["a"; "b"; "c"]%string) = None /\
  activeCount
    {| concurrency := 2;
       queue := [{| slot := 2; folder := "c" |}];
       running := [{| slot := 0; folder := "a" |};
                   {| slot := 1; folder := "b" |}] |} <= scanLimit.
Proof.
  split; [reflexivity|]. split; [reflexivity|].
  refine (proj1 (proj2 (scan_tasks_bounded ["a"; "b"; "c"]%string
                          {| limiter := _; settled := [] |} _))).
  apply (run_reachable [Start; Start]). reflexivity.
Defined.




(** C2, as the handlers have it. A returned sequence has one result per
    input path, the result at position [i] being the one of the path at
    position [i], and it holds results only; it is returned when every
    folder scans. *)
Theorem scan_results_follow_paths (Res Err : Type)
  (scanFolder : string -> Settled Res Err)
  (handler : Settled (list Res) Err -> Action Err (list Res))
  (filePaths : list string) :
  In handler (scanHandlers Res Err) ->
  (forall rs, returns scanFolder handler filePaths (Fulfilled rs) ->
     length rs = length filePaths /\
     forall i p, nth_error filePaths i = Some p ->
                 exists r, nth_error rs i = Some r /\
                           scanFolder p = Fulfilled r) /\
  ((forall p, In p filePaths -> exists r, scanFolder p = Fulfilled r) ->
   (exists rs, returns scanFolder handler filePaths (Fulfilled rs)) /\
   forall b, reachable (submit filePaths) b -> drained b ->
     exists rs, promiseAll scanFolder (length filePaths) (settled b) =
                Done (Fulfilled rs)).
Proof.
  intros Hh. split.
  - intros rs.
    exact (returned_results_positional _ _ scanFolder _ _ _ Hh).
  - intros Hall. split.
    + exact (returns_all_results _ _ scanFolder _ _ Hh Hall).
    + intros b Hb Hd.
      exact (promiseAll_drained_fulfilled _ _ scanFolder _ _ Hb Hd Hall).
Qed.

Lemma scan_results_follow_paths_witness :
  exists rs,
    returns sampleScan (@handle_CURSE_GET_SCAN_RESULTS string FsError)
            ["AddOns/WeakAuras"; "AddOns/Details"]%string (Fulfilled rs) /\
    length rs = 2 /\
    exists r, nth_error rs 0 = Some r /\
              sampleScan "AddOns/WeakAuras"%string = Fulfilled r.
Proof.
  destruct (scan_results_follow_paths string FsError sampleScan
              (@handle_CURSE_GET_SCAN_RESULTS string FsError)
              ["AddOns/WeakAuras"; "AddOns/Details"]%string
              (or_introl eq_refl)) as [Hpos Hall].
  destruct Hall as [[rs Hrs] _].
  - intros p [<- | [<- | []]]; eexists; reflexivity.
  - exists rs. destruct (Hpos rs Hrs) as [Hlen Hnth].
    split; [exact Hrs|]. split; [exact Hlen|].
    exact (Hnth 0 "AddOns/WeakAuras"%string eq_refl).
Defined.

(** C2 as stated fails: when a folder of the batch is gone, the WowUp
    handler returns no sequence of outcomes at all, only a rejection. *)
Lemma scan_returns_no_sequence_on_failure :
  (exists e,
     returns sampleScan (@handle_WOWUP_GET_SCAN_RESULTS string FsError)
             ["AddOns/Removed"; "AddOns/WeakAuras"]%string (Rejected e)) /\
  ~ exists rs,
      returns sampleScan (@handle_WOWUP_GET_SCAN_RESULTS string FsError)
              ["AddOns/Removed"; "AddOns/WeakAuras"]%string (Fulfilled rs).
Proof.
  assert (Hh : In (@handle_WOWUP_GET_SCAN_RESULTS string FsError)
                  (scanHandlers string FsError)) by (right; left; reflexivity).
  split.
  - apply (returns_some_rejection _ _ sampleScan _ _
             "AddOns/Removed"%string enoent Hh); [left|]; reflexivity.
  - intros [rs Hrs].
    destruct (returned_results_positional _ _ sampleScan _ _ _ Hh Hrs)
      as [_ Hnth].
    destruct (Hnth 0 "AddOns/Removed"%string eq_refl) as (r & _ & Hr).
    discriminate Hr.
Qed.

(* ================================================================== *)
(** * Properties of the scanning core *)

(** ** Sorting the file hashes *)

Lemma insertHash_comm (a b : N) (s : list N) :
  insertHash a (insertHash b s) = insertHash b (insertHash a s).
Proof.
  induction s as [|h s IH]; cbn [insertHash].
  - destruct (a <=? b)%N eqn:Hab, (b <=? a)%N eqn:Hba; try reflexivity.
    + apply N.leb_le in Hab, Hba. f_equal; [|f_equal]; lia.
    + apply N.leb_gt in Hab, Hba. lia.
  - destruct (b <=? h)%N eqn:Hbh, (a <=? h)%N eqn:Hah; cbn [insertHash];
      rewrite ?Hbh, ?Hah.
    + destruct (a <=? b)%N eqn:Hab, (b <=? a)%N eqn:Hba; try reflexivity.
      * apply N.leb_le in Hab, Hba. f_equal; [|f_equal]; lia.
      * apply N.leb_gt in Hab, Hba. lia.
    + destruct (a <=? b)%N eqn:Hab; [|reflexivity].
      apply N.leb_le in Hab, Hbh. apply N.leb_gt in Hah. lia.
    + destruct (b <=? a)%N eqn:Hba; [|reflexivity].
      apply N.leb_le in Hba, Hah. apply N.leb_gt in Hbh. lia.
    + rewrite IH. reflexivity.
Qed.

(** The sorted sequence depends on the hashes only, not on their order. *)
Lemma sortHashes_permutation (hs hs' : list N) :
  Permutation hs hs' -> sortHashes hs = sortHashes hs'.
Proof.
  induction 1 as [| h l l' _ IH | a b l | l l' l'' _ IH1 _ IH2];
    cbn [sortHashes].
  - reflexivity.
  - rewrite IH. reflexivity.
  - apply insertHash_comm.
  - congruence.
Qed.

Lemma insertHash_perm (h : N) (s : list N) :
  Permutation (insertHash h s) (h :: s).
Proof.
  induction s as [|h' s IH]; cbn [insertHash]; [reflexivity|].
  destruct (h <=? h')%N; [reflexivity|].
  rewrite IH. apply perm_swap.
Qed.

Lemma sortHashes_perm (hs : list N) : Permutation (sortHashes hs) hs.
Proof.
  induction hs as [|h hs IH]; cbn [sortHashes]; [reflexivity|].
  rewrite insertHash_perm, IH. reflexivity.
Qed.

Lemma insertHash_sorted (h : N) (s : list N) :
  Sorted N.le s -> Sorted N.le (insertHash h s).
Proof.
  induction s as [|h' s IH]; intros Hs; cbn [insertHash].
  - repeat constructor.
  - destruct (h <=? h')%N eqn:Hle.
    + apply N.leb_le in Hle. constructor; [exact Hs | constructor; exact Hle].
    + apply N.leb_gt in Hle. inversion Hs as [|? ? Hs' Hhd]; subst.
      constructor; [exact (IH Hs')|].
      destruct s as [|h'' s]; cbn [insertHash].
      * constructor. lia.
      * destruct (h <=? h'')%N; constructor; [lia|].
        inversion Hhd; subst. assumption.
Qed.

Lemma sortHashes_sorted (hs : list N) : Sorted N.le (sortHashes hs).
Proof.
  induction hs as [|h hs IH]; cbn [sortHashes].
  - constructor.
  - exact (insertHash_sorted h _ IH).
Qed.

Lemma filter_permutation {A : Type} (f : A -> bool) (l l' : list A) :
  Permutation l l' -> Permutation (filter f l) (filter f l').
Proof.
  induction 1 as [| x l l' _ IH | x y l | l l' l'' _ IH1 _ IH2];
    cbn [filter].
  - constructor.
  - destruct (f x); [constructor|]; exact IH.
  - destruct (f x), (f y); try reflexivity. apply perm_swap.
  - etransitivity; eassumption.
Qed.

(** ** The catalog scan of one folder *)

Section CatalogFolderScannerFacts.

Variable allowList : list string.
Variable FileType : Type.
Variable fileTypeOf : string -> FileType.
Variable alternateFilters : list (string -> bool).
Variable normalize : FileType -> Buffer -> Buffer.
Variable hashBuffer : Buffer -> N.
Variable hashFolder : list N -> N.

Local Abbreviation printOf := (fileFingerprint fileTypeOf normalize hashBuffer).
Local Abbreviation printsOf :=
  (fingerprintFiles fileTypeOf normalize hashBuffer).
Local Abbreviation scan :=
  (scanFiles allowList fileTypeOf alternateFilters normalize
             hashBuffer hashFolder).

Lemma fileFingerprint_error f e : printOf f = Rejected e -> e = IoError.
Proof.
  unfold fileFingerprint. destruct (contents f); congruence.
Qed.

Lemma fingerprintFiles_error files e :
  printsOf files = Rejected e -> e = IoError.
Proof.
  induction files as [|f files IH]; cbn; [discriminate|].
  destruct (printOf f) as [fp|e'] eqn:Hf.
  - destruct (printsOf files); [discriminate|].
    intros [= <-]. apply IH. reflexivity.
  - intros [= <-]. exact (fileFingerprint_error f e' Hf).
Qed.

Lemma fingerprintFiles_permutation files files' :
  Permutation files files' ->
  samePrints (printsOf files) (printsOf files').
Proof.
  induction 1 as [| f l l' _ IH | f g l | l l' l'' _ IH1 _ IH2].
  - cbn. constructor.
  - cbn. destruct (printOf f); [|reflexivity].
    unfold samePrints in IH.
    destruct (printsOf l), (printsOf l'); cbn;
      try contradiction; [constructor|]; assumption.
  - cbn. destruct (printOf f) as [fp|e] eqn:Hf,
             (printOf g) as [gp|e'] eqn:Hg; cbn.
    + destruct (printsOf l); cbn; [apply perm_swap | reflexivity].
    + reflexivity.
    + reflexivity.
    + rewrite (fileFingerprint_error f e Hf), (fileFingerprint_error g e' Hg).
      reflexivity.
  - unfold samePrints in *.
    destruct (printsOf l), (printsOf l'),
             (printsOf l''); try contradiction.
    + etransitivity; eassumption.
    + congruence.
Qed.

Lemma folderFingerprint_permutation fps fps' :
  Permutation fps fps' ->
  folderFingerprint hashFolder fps = folderFingerprint hashFolder fps'.
Proof.
  intros Hp. unfold folderFingerprint. f_equal.
  apply sortHashes_permutation, Permutation_map. exact Hp.
Qed.

Lemma scanFiles_permutation folder folder' :
  Permutation folder folder' ->
  fingerprintsOf (scan folder) = fingerprintsOf (scan folder').
Proof.
  intros Hp. unfold scanFiles.
  pose proof (fingerprintFiles_permutation _ _
                (filter_permutation (isContentFile allowList) _ _ Hp)) as Hs.
  unfold samePrints in Hs.
  destruct (printsOf (filter (isContentFile allowList) folder))
    as [fps|e],
    (printsOf (filter (isContentFile allowList) folder'))
    as [fps'|e']; try contradiction; cbn [fingerprintsOf fingerprint alternates].
  - f_equal. f_equal.
    + exact (folderFingerprint_permutation _ _ Hs).
    + apply map_ext. intros keep. unfold alternateFingerprint.
      apply folderFingerprint_permutation, filter_permutation. exact Hs.
  - congruence.
Qed.

Lemma scanFiles_sorted folder s :
  scan folder = Fulfilled s ->
  fingerprint s = hashFolder (sortHashes (map snd (fileFingerprints s))).
Proof.
  unfold scanFiles.
  destruct (printsOf (filter (isContentFile allowList) folder));
    [|discriminate].
  intros [= <-]. reflexivity.
Qed.

(** The scan sees of a file its path and its bytes only. *)
Lemma isContentFile_onDisk f g :
  onDisk f = onDisk g -> isContentFile allowList f = isContentFile allowList g.
Proof.
  unfold onDisk, isContentFile, extensionOf. intros [= Hp _]. rewrite Hp.
  reflexivity.
Qed.

Lemma fileFingerprint_onDisk f g : onDisk f = onDisk g -> printOf f = printOf g.
Proof.
  unfold onDisk, fileFingerprint, extensionOf. intros [= Hp Hc].
  rewrite Hp, Hc. reflexivity.
Qed.

Lemma contentFiles_onDisk folder folder' :
  map onDisk folder = map onDisk folder' ->
  printsOf (filter (isContentFile allowList) folder) =
  printsOf (filter (isContentFile allowList) folder').
Proof.
  revert folder'. induction folder as [|f folder IH]; intros [|g folder'];
    try discriminate; [reflexivity|].
  cbn [map filter]. intros Heq.
  assert (Hfg : onDisk f = onDisk g) by congruence.
  assert (Hrest : map onDisk folder = map onDisk folder') by congruence.
  rewrite (isContentFile_onDisk f g Hfg).
  destruct (isContentFile allowList g).
  - cbn [fingerprintFiles].
    rewrite (fileFingerprint_onDisk f g Hfg), (IH folder' Hrest). reflexivity.
  - exact (IH folder' Hrest).
Qed.

Lemma scanFiles_onDisk folder folder' :
  map onDisk folder = map onDisk folder' -> scan folder = scan folder'.
Proof.
  intros Hv. unfold scanFiles. rewrite (contentFiles_onDisk _ _ Hv).
  reflexivity.
Qed.

(** The same files, listed in any order and written at any time, have the
    same fingerprints. *)
Lemma scanFiles_same_files folder folder' :
  Permutation (map onDisk folder) (map onDisk folder') ->
  fingerprintsOf (scan folder) = fingerprintsOf (scan folder').
Proof.
  intros Hp. destruct (Permutation_map_inv _ _ Hp) as (listed & Hv & Hl).
  rewrite (scanFiles_onDisk _ _ Hv). symmetry.
  apply scanFiles_permutation. exact Hl.
Qed.

(** Step 3 fingerprints every file it is given, in the order given. *)
Lemma fingerprintFiles_printed files fps :
  printsOf files = Fulfilled fps ->
  Forall2 (fun f fp =>
             exists b, contents f = Content b /\
               fp = (relPath f,
                     hashBuffer (normalize (fileTypeOf (extensionOf f)) b)))
          files fps.
Proof.
  revert fps. induction files as [|f files IH]; intros fps; cbn.
  - intros [= <-]. constructor.
  - unfold fileFingerprint at 1. destruct (contents f) as [b|] eqn:Hc;
      [|discriminate].
    destruct (printsOf files) as [rest|]; [|discriminate].
    intros [= <-]. constructor.
    + exists b. split; [exact Hc | reflexivity].
    + apply IH. reflexivity.
Qed.

(** Step 3 fails exactly when one of its files cannot be read. *)
Lemma fingerprintFiles_readable files :
  (exists fps, printsOf files = Fulfilled fps) <->
  (forall f, In f files -> contents f <> Unreadable).
Proof.
  induction files as [|f files IH]; cbn [fingerprintFiles].
  - split; [intros _ f [] | intros _; eexists; reflexivity].
  - unfold fileFingerprint at 1. split.
    + intros [fps Hfps] g [<- | Hg].
      * destruct (contents f); [discriminate | discriminate Hfps].
      * destruct (contents f); [|discriminate].
        destruct (printsOf files) as [rest|] eqn:Hrest; [|discriminate].
        apply (proj1 IH); [eexists; reflexivity | exact Hg].
    + intros Hall.
      destruct (contents f) as [b|] eqn:Hc.
      * destruct (proj2 IH) as [rest Hrest].
        { intros g Hg. apply Hall. right. exact Hg. }
        rewrite Hrest. eexists; reflexivity.
      * exfalso. apply (Hall f); [left; reflexivity | exact Hc].
Qed.

Lemma scanFiles_fulfilled folder s :
  scan folder = Fulfilled s ->
  printsOf (filter (isContentFile allowList) folder) =
  Fulfilled (fileFingerprints s) /\
  alternates s =
  map (fun keep =>
         hashFolder (sortHashes
           (map snd (filter (fun fp => keep (fst fp)) (fileFingerprints s)))))
      alternateFilters.
Proof.
  unfold scanFiles.
  destruct (printsOf (filter (isContentFile allowList) folder));
    [|discriminate].
  intros [= <-]. split; reflexivity.
Qed.

Lemma scanFiles_readable folder :
  (exists s, scan folder = Fulfilled s) <->
  (forall f, In f folder -> isContentFile allowList f = true ->
             contents f <> Unreadable).
Proof.
  assert (Hscan : (exists s, scan folder = Fulfilled s) <->
                  (exists fps, printsOf (filter (isContentFile allowList)
                                                folder) = Fulfilled fps)).
  { unfold scanFiles.
    destruct (printsOf (filter (isContentFile allowList) folder)) as [fps|e].
    - split; intros _; eexists; reflexivity.
    - split; intros [x Hx]; discriminate. }
  rewrite Hscan, fingerprintFiles_readable. split.
  - intros H f Hin Hc. apply H. apply filter_In. tauto.
  - intros H f Hin. apply filter_In in Hin. apply H; tauto.
Qed.

Lemma scanFiles_error folder e : scan folder = Rejected e -> e = IoError.
Proof.
  unfold scanFiles.
  destruct (printsOf (filter (isContentFile allowList) folder)) eqn:Hp;
    [discriminate|].
  intros [= <-]. exact (fingerprintFiles_error _ _ Hp).
Qed.

End CatalogFolderScannerFacts.

(* ================================================================== *)
(** * The claims about the scanning core *)

(** C4. The fingerprints of a folder depend only on which files it holds
    and on their bytes: two folders holding the same files have the same
    primary and alternate fingerprints and fail alike, in whatever order
    the files are listed and whenever they were written.  The scan of a
    folder succeeds exactly when every file of the allow-list can be
    read; it then fingerprints each of these files, and no other, by the
    hash of its normalized bytes, the primary fingerprint is [hashFolder]
    of these hashes in ascending order, and each alternate fingerprint
    that of the files its filter keeps. *)
Theorem folder_fingerprint_order_independent
  (allowList : list string) (FileType : Type)
  (fileTypeOf : string -> FileType)
  (alternateFilters : list (string -> bool))
  (normalize : FileType -> Buffer -> Buffer)
  (hashBuffer : Buffer -> N) (hashFolder : list N -> N)
  (fs fs' : FileSystem) (path path' : string) (folder folder' : Folder) :
  fs path = Some folder -> fs' path' = Some folder' ->
  Permutation (map onDisk folder) (map onDisk folder') ->
  fingerprintsOf (scanCatalogFolder allowList fileTypeOf alternateFilters
                    normalize hashBuffer hashFolder fs path) =
  fingerprintsOf (scanCatalogFolder allowList fileTypeOf alternateFilters
                    normalize hashBuffer hashFolder fs' path') /\
  ((exists s, scanCatalogFolder allowList fileTypeOf alternateFilters
                normalize hashBuffer hashFolder fs path = Fulfilled s) <->
   (forall f, In f folder -> isContentFile allowList f = true ->
              contents f <> Unreadable)) /\
  (forall s,
     scanCatalogFolder allowList fileTypeOf alternateFilters
                       normalize hashBuffer hashFolder fs path = Fulfilled s ->
     Forall2 (fun f fp =>
                exists b, contents f = Content b /\
                  fp = (relPath f,
                        hashBuffer (normalize (fileTypeOf (extensionOf f)) b)))
             (filter (isContentFile allowList) folder) (fileFingerprints s) /\
     (exists sorted,
        fingerprint s = hashFolder sorted /\
        Sorted N.le sorted /\
        Permutation sorted (map snd (fileFingerprints s))) /\
     alternates s =
     map (fun keep =>
            hashFolder (sortHashes
              (map snd (filter (fun fp => keep (fst fp))
                               (fileFingerprints s)))))
         alternateFilters).
Proof.
  intros Hfs Hfs' Hperm. unfold scanCatalogFolder. rewrite Hfs, Hfs'.
  split; [|split].
  - apply scanFiles_same_files. exact Hperm.
  - apply scanFiles_readable.
  - intros s Hs.
    destruct (scanFiles_fulfilled _ _ _ _ _ _ _ _ _ Hs) as [Hfps Halt].
    split; [|split].
    + exact (fingerprintFiles_printed _ _ _ _ _ _ Hfps).
    + exists (sortHashes (map snd (fileFingerprints s))).
      split; [|split].
      * exact (scanFiles_sorted _ _ _ _ _ _ _ _ _ Hs).
      * apply sortHashes_sorted.
      * apply sortHashes_perm.
    + exact Halt.
Qed.

Lemma folder_fingerprint_order_independent_witness :
  fingerprintsOf
    (scanCatalogFolder sampleAllowList sampleFileType sampleAlternateFilters
       sampleNormalize sampleHashBuffer sampleHashFolder
       sampleDisk "AddOns/Foo"%string) =
  fingerprintsOf
    (scanCatalogFolder sampleAllowList sampleFileType sampleAlternateFilters
       sampleNormalize sampleHashBuffer sampleHashFolder
       sampleDisk "Backup/Foo"%string) /\
  exists s,
    scanCatalogFolder sampleAllowList sampleFileType sampleAlternateFilters
      sampleNormalize sampleHashBuffer sampleHashFolder
      sampleDisk "AddOns/Foo"%string = Fulfilled s /\
    map fst (fileFingerprints s) =
    ["Foo.lua"; "Locales/deDE.lua"; "Libs/Core.LUA"]%string.
Proof.
  split.
  - refine (proj1 (folder_fingerprint_order_independent
                     sampleAllowList bool sampleFileType
                     sampleAlternateFilters sampleNormalize
                     sampleHashBuffer sampleHashFolder sampleDisk sampleDisk
                     "AddOns/Foo"%string "Backup/Foo"%string
                     [fooLua; readme; localeLua; coreLua]
                     [touch 1700000000 coreLua; touch 1700000300 localeLua;
                      touch 1700000100 fooLua; touch 1700000200 readme]
                     eq_refl eq_refl _)).
    apply (Permutation_cons_app
             [onDisk coreLua; onDisk localeLua] [onDisk readme]
             (onDisk fooLua)).
    apply (Permutation_cons_app
             [onDisk coreLua; onDisk localeLua] [] (onDisk readme)).
    apply perm_swap.
  - eexists. split; reflexivity.
Defined.

(* ================================================================== *)
(** * Further properties of the handlers *)

(** ** The queue at any limit *)

Lemma submitWith_limiter c items :
  limiter (submitWith c items) =
  {| concurrency := c; queue := tasksFrom 0 items; running := [] |}.
Proof. unfold submitWith. cbn. rewrite fold_enqueue. reflexivity. Qed.

Lemma fifo_partition items b :
  fifo items b ->
  Permutation (queue (limiter b) ++ running (limiter b) ++ settled b)
              (tasksFrom 0 items).
Proof.
  intros (started & Heq & Hperm). rewrite Heq.
  rewrite Permutation_app_comm. apply Permutation_app_tail.
  symmetry. exact Hperm.
Qed.

Lemma wellFormedAt_submit c items : wellFormedAt c items (submitWith c items).
Proof.
  unfold wellFormedAt, fifo. rewrite submitWith_limiter. cbn.
  repeat split; [lia|]. exists []. split; reflexivity.
Qed.

Lemma wellFormedAt_step c items b b' :
  wellFormedAt c items b -> step b b' -> wellFormedAt c items b'.
Proof.
  intros (Hc & Hn & started & Heq & Hp) [ev Hev].
  destruct b as [[c0 q r] d]. unfold activeCount in Hn.
  cbn [limiter settled concurrency queue running] in *. subst c0.
  destruct ev as [|k]; unfold fire, tryStart, next, activeCount in Hev;
    cbn [limiter settled concurrency queue running] in Hev.
  - destruct q as [|t q]; [discriminate|].
    destruct (length r <? c) eqn:Hlt; [|discriminate].
    apply Nat.ltb_lt in Hlt. injection Hev as <-.
    unfold wellFormedAt, activeCount, fifo.
    cbn [limiter settled concurrency queue running].
    repeat split.
    + rewrite length_app. cbn [length]. lia.
    + exists (started ++ [t]). split.
      * rewrite <- app_assoc. exact Heq.
      * rewrite Hp. count_tasks.
  - destruct (nth_error r k) as [t|] eqn:Hk; [|discriminate].
    destruct (take_out r k t Hk) as [Hperm Hlen].
    assert (Hpos : 0 < length r).
    { apply nth_error_lt in Hk. lia. }
    set (rest := firstn k r ++ skipn (S k) r) in *.
    assert (Hp' : Permutation started ((t :: rest) ++ d)).
    { rewrite Hp. apply Permutation_app_tail. exact Hperm. }
    destruct q as [|t' q]; injection Hev as <-;
      unfold wellFormedAt, activeCount, fifo;
      cbn [limiter settled concurrency queue running]; repeat split.
    + lia.
    + exists started. split; [exact Heq|]. rewrite Hp'. count_tasks.
    + rewrite length_app. cbn [length]. lia.
    + exists (started ++ [t']). split.
      * rewrite <- app_assoc. exact Heq.
      * rewrite Hp'. count_tasks.
Qed.

Lemma wellFormedAt_reachable c items b :
  reachable (submitWith c items) b -> wellFormedAt c items b.
Proof.
  induction 1 as [|b b' _ IH Hstep].
  - apply wellFormedAt_submit.
  - exact (wellFormedAt_step _ _ _ _ IH Hstep).
Qed.

Lemma progress_at c items b :
  0 < c -> wellFormedAt c items b -> drained b \/ exists b', step b b'.
Proof.
  intros Hpos (Hc & _ & _). destruct b as [[c0 q r] d].
  cbn [limiter concurrency] in Hc. subst c0.
  destruct r as [|t r].
  - destruct q as [|t q].
    + left. split; reflexivity.
    + right. eexists. exists Start. unfold fire, tryStart, activeCount.
      cbn [limiter settled concurrency queue running length].
      apply Nat.ltb_lt in Hpos. rewrite Hpos. reflexivity.
  - right. eexists. exists (Settle 0). unfold fire, next.
    cbn [limiter settled concurrency queue running nth_error].
    reflexivity.
Qed.

Lemma drains_within_at n c items b :
  0 < c -> budget b <= n ->
  reachable (submitWith c items) b ->
  exists b', reachable (submitWith c items) b' /\ drained b'.
Proof.
  intros Hpos. revert b. induction n as [|n IH]; intros b Hn Hb;
    destruct (progress_at _ _ _ Hpos (wellFormedAt_reachable _ _ _ Hb))
      as [Hd | [b' Hs]];
    try (exists b; split; assumption).
  - apply step_budget in Hs. lia.
  - apply (IH b').
    + apply step_budget in Hs. lia.
    + exact (reach_step Hb Hs).
Qed.

Lemma drains_at c items :
  0 < c -> exists b, reachable (submitWith c items) b /\ drained b.
Proof.
  intros Hpos. exact (drains_within_at _ c items _ Hpos (le_n _) (reach_here _)).
Qed.

Lemma drained_all_settled_at c items b :
  reachable (submitWith c items) b -> drained b ->
  Permutation (settled b) (tasksFrom 0 items).
Proof.
  intros Hb [Hq Hr].
  destruct (wellFormedAt_reachable _ _ _ Hb) as (_ & _ & Hf).
  apply fifo_partition in Hf. rewrite Hq, Hr in Hf. exact Hf.
Qed.

Lemma settled_at_tasks c items b t :
  reachable (submitWith c items) b -> In t (settled b) ->
  nth_error items (slot t) = Some (folder t).
Proof.
  intros Hb Ht. destruct (wellFormedAt_reachable _ _ _ Hb) as (_ & _ & Hf).
  apply fifo_partition in Hf.
  apply tasksOf_In. apply (Permutation_in _ Hf).
  rewrite !in_app_iff. tauto.
Qed.

(** ** Promise.all at any limit *)

(** *** After the start-up checks *)

(** A check that finds nothing to start leaves the limiter, and so do all
    later checks. *)
Lemma startIfFree_some l l' : tryStart l = Some l' -> startIfFree l = l'.
Proof. intros H. unfold startIfFree. rewrite H. reflexivity. Qed.

Lemma startIfFree_none l : tryStart l = None -> startIfFree l = l.
Proof. intros H. unfold startIfFree. rewrite H. reflexivity. Qed.

Lemma startIfFree_idle {A : Type} (rest : list A) l :
  tryStart l = None -> fold_left (fun l _ => startIfFree l) rest l = l.
Proof.
  intros Hnone. induction rest as [|x rest IH]; [reflexivity|].
  cbn [fold_left]. rewrite (startIfFree_none l Hnone). exact IH.
Qed.

Lemma tryStart_none l :
  tryStart l = None -> queue l = [] \/ concurrency l <= activeCount l.
Proof.
  unfold tryStart. destruct (queue l) as [|t q]; [left; reflexivity|].
  destruct (activeCount l <? concurrency l) eqn:Hlt; [discriminate|].
  intros _. right. apply Nat.ltb_ge. exact Hlt.
Qed.

Lemma tryStart_queue l l' :
  tryStart l = Some l' -> length (queue l) = S (length (queue l')).
Proof.
  unfold tryStart. destruct (queue l) as [|t q]; [discriminate|].
  destruct (activeCount l <? concurrency l); [|discriminate].
  intros [= <-]. reflexivity.
Qed.

(** One check per queued call leaves a call waiting only when no place is
    free. *)
Lemma checks_fill_places {A : Type} (checks : list A) l :
  length (queue l) <= length checks ->
  queue (fold_left (fun l _ => startIfFree l) checks l) = [] \/
  concurrency (fold_left (fun l _ => startIfFree l) checks l) <=
  activeCount (fold_left (fun l _ => startIfFree l) checks l).
Proof.
  revert l. induction checks as [|x checks IH]; intros l Hlen;
    cbn [fold_left].
  - left. destruct (queue l); [reflexivity | cbn in Hlen; lia].
  - destruct (tryStart l) as [l1|] eqn:Hs.
    + rewrite (startIfFree_some l l1 Hs). apply IH.
      apply tryStart_queue in Hs. cbn in Hlen. lia.
    + rewrite (startIfFree_none l Hs), (startIfFree_idle checks l Hs).
      exact (tryStart_none l Hs).
Qed.

(** The checks are events of the queue: what holds at every instant of a
    call holds after the start-up. *)
Lemma checks_reachable {A : Type} (checks : list A) b0 l :
  reachable b0 {| limiter := l; settled := [] |} ->
  reachable b0 {| limiter := fold_left (fun l _ => startIfFree l) checks l;
                  settled := [] |}.
Proof.
  revert l. induction checks as [|x checks IH]; intros l Hl; [exact Hl|].
  cbn [fold_left]. apply IH.
  destruct (tryStart l) as [l1|] eqn:Hs.
  - rewrite (startIfFree_some l l1 Hs).
    apply (reach_step Hl). exists Start. cbn. rewrite Hs. reflexivity.
  - rewrite (startIfFree_none l Hs). exact Hl.
Qed.

Lemma launched_reachable c items :
  reachable (submitWith c items) (launched c items).
Proof.
  unfold launched. apply checks_reachable.
  destruct (submitWith c items) as [l d] eqn:Hb.
  assert (Hd : d = []).
  { change d with (settled {| limiter := l; settled := d |}).
    rewrite <- Hb. reflexivity. }
  subst d. cbn [limiter]. apply reach_here.
Qed.

Lemma reachable_trans b0 b1 b2 :
  reachable b0 b1 -> reachable b1 b2 -> reachable b0 b2.
Proof.
  intros H01 H12. induction H12 as [|b b' _ IH Hstep]; [exact H01|].
  exact (reach_step IH Hstep).
Qed.

Lemma placesFilled_launched c items : placesFilled (launched c items).
Proof.
  pose proof (wellFormedAt_reachable _ _ _ (launched_reachable c items))
    as (Hc & Hn & _).
  unfold placesFilled.
  destruct (checks_fill_places items (limiter (submitWith c items))) as [Hq | Hf].
  - rewrite submitWith_limiter. cbn [queue]. rewrite tasksFrom_length. lia.
  - left. exact Hq.
  - right. unfold launched in *. cbn [limiter] in *. lia.
Qed.

(** With the places filled nothing can be started, and a settlement hands
    its place to the head of the queue. *)
Lemma placesFilled_no_start b : placesFilled b -> fire Start b = None.
Proof.
  unfold placesFilled, fire, tryStart. intros Hf.
  destruct (queue (limiter b)) as [|t q] eqn:Hq; [reflexivity|].
  destruct Hf as [Hf | Hf]; [discriminate|].
  rewrite Hf, Nat.ltb_irrefl. reflexivity.
Qed.

Lemma placesFilled_step b b' : placesFilled b -> step b b' -> placesFilled b'.
Proof.
  intros Hf [ev Hev]. destruct ev as [|k].
  - rewrite (placesFilled_no_start b Hf) in Hev. discriminate.
  - destruct b as [[c q r] d]. unfold placesFilled, activeCount in *.
    unfold fire, next in Hev.
    cbn [limiter settled concurrency queue running] in *.
    destruct (nth_error r k) as [t|] eqn:Hk; [|discriminate].
    destruct (take_out r k t Hk) as [_ Hlen].
    apply nth_error_lt in Hk.
    set (rest := firstn k r ++ skipn (S k) r) in *.
    destruct q as [|t' q]; injection Hev as <-;
      cbn [limiter settled concurrency queue running].
    + left. reflexivity.
    + right. destruct Hf as [Hf | Hf]; [discriminate|].
      rewrite length_app, Hlen. cbn [length]. lia.
Qed.

Lemma placesFilled_reachable c items b :
  reachable (launched c items) b -> placesFilled b.
Proof.
  induction 1 as [|b b' _ IH Hstep].
  - apply placesFilled_launched.
  - exact (placesFilled_step _ _ IH Hstep).
Qed.

Section LimitedCallFacts.

Variables Res Err : Type.
Variable task : string -> Settled Res Err.

Lemma valueAt_drained_at c items b i p r :
  reachable (submitWith c items) b -> drained b ->
  nth_error items i = Some p -> task p = Fulfilled r ->
  valueAt task (settled b) i = Some r.
Proof.
  intros Hb Hd Hp Hr. unfold valueAt.
  destruct (find (fun t => slot t =? i) (settled b)) as [t|] eqn:Hf.
  - apply find_some in Hf. destruct Hf as [Hin Hs]. apply Nat.eqb_eq in Hs.
    pose proof (settled_at_tasks _ _ _ _ Hb Hin) as Ht. rewrite Hs, Hp in Ht.
    injection Ht as <-. rewrite Hr. reflexivity.
  - exfalso. pose proof (drained_all_settled_at _ _ _ Hb Hd) as Hperm.
    assert (Hin : In {| slot := i; folder := p |} (settled b)).
    { apply (Permutation_in _ (Permutation_sym Hperm)).
      apply tasksOf_In. exact Hp. }
    apply (find_none _ _ Hf) in Hin. cbn in Hin.
    rewrite Nat.eqb_refl in Hin. discriminate.
Qed.

Lemma promiseAll_fulfilled_at c items b rs :
  reachable (submitWith c items) b ->
  promiseAll task (length items) (settled b) = Done (Fulfilled rs) ->
  length rs = length items /\
  forall i p, nth_error items i = Some p ->
              exists r, nth_error rs i = Some r /\ task p = Fulfilled r.
Proof.
  intros Hb. unfold promiseAll.
  destruct (firstRejection task (settled b)); [discriminate|].
  destruct (collect task (settled b) (seq 0 (length items)))
    as [rs'|] eqn:Hc; [|discriminate].
  intros [= <-]. split.
  - rewrite (collect_length _ _ _ _ _ _ Hc). apply length_seq.
  - intros i p Hp.
    assert (Hi : i < length items) by (apply nth_error_Some; congruence).
    assert (Hs : nth_error (seq 0 (length items)) i = Some i).
    { rewrite nth_error_seq. apply Nat.ltb_lt in Hi. rewrite Hi. reflexivity. }
    destruct (collect_nth _ _ _ _ _ _ _ _ Hc Hs) as (r & Hr & Hv).
    destruct (valueAt_some _ _ _ _ _ _ Hv) as (t & Hin & Hslot & Hok).
    pose proof (settled_at_tasks _ _ _ _ Hb Hin) as Ht. rewrite Hslot, Hp in Ht.
    injection Ht as ->. exists r. tauto.
Qed.

Lemma promiseAll_rejected_at c items b e :
  reachable (submitWith c items) b ->
  promiseAll task (length items) (settled b) = Done (Rejected e) ->
  exists p, In p items /\ task p = Rejected e.
Proof.
  intros Hb. unfold promiseAll.
  destruct (firstRejection task (settled b)) as [e'|] eqn:Hf.
  - intros [= <-].
    destruct (firstRejection_some _ _ _ _ _ Hf) as (t & Hin & Hrej).
    exists (folder t). split; [|exact Hrej].
    exact (nth_error_In _ _ (settled_at_tasks _ _ _ _ Hb Hin)).
  - destruct (collect _ _ _); discriminate.
Qed.

Lemma promiseAll_drained_fulfilled_at c items b :
  reachable (submitWith c items) b -> drained b ->
  (forall p, In p items -> exists r, task p = Fulfilled r) ->
  exists rs,
    promiseAll task (length items) (settled b) = Done (Fulfilled rs).
Proof.
  intros Hb Hd Hall. unfold promiseAll.
  destruct (firstRejection task (settled b)) as [e|] eqn:Hf.
  - destruct (firstRejection_some _ _ _ _ _ Hf) as (t & Hin & Hrej).
    apply (settled_at_tasks _ _ _ _ Hb), nth_error_In, Hall in Hin.
    destruct Hin as [r Hr]. congruence.
  - destruct (collect_total _ _ task (settled b) (seq 0 (length items)))
      as [rs ->].
    + intros i Hi. apply in_seq in Hi.
      destruct (nth_error items i) as [p|] eqn:Hp.
      * destruct (Hall p (nth_error_In _ _ Hp)) as [r Hr].
        exists r. exact (valueAt_drained_at _ _ _ _ _ _ Hb Hd Hp Hr).
      * apply nth_error_None in Hp. lia.
    + exists rs. reflexivity.
Qed.

Lemma promiseAll_drained_rejected_at c items b p e :
  reachable (submitWith c items) b -> drained b ->
  In p items -> task p = Rejected e ->
  exists e',
    promiseAll task (length items) (settled b) = Done (Rejected e').
Proof.
  intros Hb Hd Hin Hrej. apply In_nth_error in Hin. destruct Hin as [i Hi].
  assert (Ht : In {| slot := i; folder := p |} (settled b)).
  { apply (Permutation_in _
             (Permutation_sym (drained_all_settled_at _ _ _ Hb Hd))).
    apply tasksOf_In. exact Hi. }
  destruct (firstRejection_found _ _ task _ _ _ Ht Hrej) as [e' He'].
  exists e'. unfold promiseAll. rewrite He'. reflexivity.
Qed.

(** Two lists that hold, place by place, the value of the same items are
    one list. *)
Lemma positional_unique items (rs rs' : list Res) :
  length rs = length items ->
  (forall i p, nth_error items i = Some p ->
               exists r, nth_error rs i = Some r /\ task p = Fulfilled r) ->
  length rs' = length items ->
  (forall i p, nth_error items i = Some p ->
               exists r, nth_error rs' i = Some r /\ task p = Fulfilled r) ->
  rs = rs'.
Proof.
  intros Hl Hp Hl' Hp'. apply nth_error_ext. intros i.
  destruct (nth_error items i) as [p|] eqn:Hi.
  - destruct (Hp i p Hi) as (r & -> & Hr).
    destruct (Hp' i p Hi) as (r' & -> & Hr'). congruence.
  - apply nth_error_None in Hi.
    assert (H1 : nth_error rs i = None) by (apply nth_error_None; lia).
    assert (H2 : nth_error rs' i = None) by (apply nth_error_None; lia).
    congruence.
Qed.

End LimitedCallFacts.

(** ** The order in which tasks start *)

Lemma tasksFrom_nth k items i :
  nth_error (tasksFrom k items) i =
  option_map (fun p => {| slot := k + i; folder := p |}) (nth_error items i).
Proof.
  revert k i. induction items as [|p ps IH]; intros k [|i]; cbn;
    try reflexivity.
  - rewrite Nat.add_0_r. reflexivity.
  - rewrite IH. replace (S k + i) with (k + S i) by lia. reflexivity.
Qed.

Lemma tasksOf_slot items i t :
  nth_error (tasksFrom 0 items) i = Some t -> slot t = i.
Proof.
  rewrite tasksFrom_nth. destruct (nth_error items i); cbn; [|discriminate].
  intros [= <-]. reflexivity.
Qed.

Lemma tasksFrom_folders k items : map folder (tasksFrom k items) = items.
Proof.
  revert k. induction items as [|p ps IH]; intros k; cbn; [reflexivity|].
  rewrite IH. reflexivity.
Qed.

Lemma tasksFrom_slots k items :
  map slot (tasksFrom k items) = seq k (length items).
Proof.
  revert k. induction items as [|p ps IH]; intros k; cbn; [reflexivity|].
  rewrite IH. reflexivity.
Qed.

Lemma tasksFrom_NoDup k items : NoDup (tasksFrom k items).
Proof.
  apply (NoDup_map_inv slot). rewrite tasksFrom_slots. apply seq_NoDup.
Qed.

(** The tasks before [t] are the tasks of smaller slot. *)
Lemma before_In items t t' :
  In t' (before items t) <->
  In t' (tasksFrom 0 items) /\ slot t' < slot t.
Proof.
  unfold before. split.
  - intros Hin. apply In_nth_error in Hin. destruct Hin as [i Hi].
    rewrite nth_error_firstn in Hi.
    destruct (i <? slot t) eqn:Hlt; [|discriminate].
    apply Nat.ltb_lt in Hlt. split.
    + exact (nth_error_In _ _ Hi).
    + rewrite (tasksOf_slot _ _ _ Hi). exact Hlt.
  - intros [Hin Hlt]. apply In_nth_error in Hin. destruct Hin as [i Hi].
    apply (nth_error_In _ i). rewrite nth_error_firstn.
    rewrite (tasksOf_slot _ _ _ Hi) in Hlt. apply Nat.ltb_lt in Hlt.
    rewrite Hlt. exact Hi.
Qed.

(** A started task has started together with all tasks before it. *)
Lemma started_before items started waiting t t' :
  tasksFrom 0 items = started ++ waiting ->
  In t started -> In t' (before items t) -> In t' started.
Proof.
  intros Heq Ht Ht'. apply before_In in Ht'. destruct Ht' as [Hin' Hlt].
  apply In_nth_error in Ht. destruct Ht as [i Hi].
  assert (Hil : i < length started) by (apply nth_error_Some; congruence).
  assert (Hti : slot t = i).
  { apply (tasksOf_slot items). rewrite Heq, nth_error_app1; assumption. }
  apply In_nth_error in Hin'. destruct Hin' as [i' Hi'].
  pose proof (tasksOf_slot _ _ _ Hi') as Hti'.
  rewrite Heq, nth_error_app1 in Hi' by lia.
  exact (nth_error_In _ _ Hi').
Qed.

Lemma settledInTurn_step c items b b' :
  wellFormedAt c items b -> settledInTurn c items b -> step b b' ->
  settledInTurn c items b'.
Proof.
  intros (Hc & Hn & started & Heq & Hp) Hturn [ev Hev].
  destruct b as [[c0 q r] d]. unfold activeCount in Hn.
  unfold settledInTurn in *.
  cbn [limiter settled concurrency queue running] in *. subst c0.
  destruct ev as [|k]; unfold fire, tryStart, next, activeCount in Hev;
    cbn [limiter settled concurrency queue running] in Hev.
  - destruct q as [|t q]; [discriminate|].
    destruct (length r <? c); [|discriminate].
    injection Hev as <-. cbn [settled]. exact Hturn.
  - destruct (nth_error r k) as [t|] eqn:Hk; [|discriminate].
    destruct (take_out r k t Hk) as [Hperm Hlen].
    assert (Hpos : 0 < length r).
    { apply nth_error_lt in Hk. lia. }
    set (rest := firstn k r ++ skipn (S k) r) in *.
    assert (Hd' : settled b' = d ++ [t]).
    { destruct q; injection Hev as <-; reflexivity. }
    rewrite Hd'. clear Hev. intros j t0 Hj.
    destruct (Nat.lt_ge_cases j (length d)) as [Hlt | Hge].
    + rewrite nth_error_app1 in Hj by exact Hlt.
      destruct (Hturn j t0 Hj) as (others & Hlen' & Hall).
      exists others. split; [exact Hlen'|].
      intros t' Ht'. rewrite firstn_app.
      replace (j - length d) with 0 by lia. cbn [firstn].
      rewrite app_nil_r. exact (Hall t' Ht').
    + rewrite nth_error_app2 in Hj by exact Hge.
      destruct (j - length d) as [|m] eqn:Hm;
        [|destruct m; discriminate].
      injection Hj as <-. assert (j = length d) by lia. subst j.
      exists rest. split; [lia|].
      intros t' Ht'.
      rewrite firstn_app, Nat.sub_diag, firstn_all. cbn [firstn].
      rewrite app_nil_r.
      assert (Hts : In t started).
      { apply (Permutation_in _ (Permutation_sym Hp)).
        apply in_or_app. left. exact (nth_error_In _ _ Hk). }
      pose proof (started_before _ _ _ _ _ Heq Hts Ht') as Hin.
      apply (Permutation_in _ Hp) in Hin. apply in_app_or in Hin.
      destruct Hin as [Hr | Hdone]; [|left; exact Hdone].
      apply (Permutation_in _ Hperm) in Hr. destruct Hr as [<- | Hr].
      * apply before_In in Ht'. lia.
      * right. exact Hr.
Qed.

Lemma settledInTurn_reachable c items b :
  reachable (submitWith c items) b -> settledInTurn c items b.
Proof.
  induction 1 as [|b b' Hb IH Hstep].
  - intros j t. cbn. destruct j; discriminate.
  - exact (settledInTurn_step _ _ _ _
             (wellFormedAt_reachable _ _ _ Hb) IH Hstep).
Qed.

Lemma filter_map_length {A B : Type} (g : A -> B) (f : B -> bool) (l : list A) :
  length (filter f (map g l)) = length (filter (fun a => f (g a)) l).
Proof.
  induction l as [|a l IH]; cbn; [reflexivity|].
  destruct (f (g a)); cbn; rewrite IH; reflexivity.
Qed.

Section RejectionFacts.

Variables Res Err : Type.
Variable task : string -> Settled Res Err.

(** The first rejection is the one of a settled task before which only
    fulfilled tasks settled. *)
Lemma firstRejection_first done e :
  firstRejection task done = Some e ->
  exists j t,
    nth_error done j = Some t /\ task (folder t) = Rejected e /\
    forall t', In t' (firstn j done) -> fails task (folder t') = false.
Proof.
  induction done as [|t0 rest IH]; cbn [firstRejection]; [discriminate|].
  destruct (task (folder t0)) as [r|e0] eqn:Ht0.
  - intros Hf. destruct (IH Hf) as (j & t & Hj & Hrej & Hall).
    exists (S j), t. cbn [nth_error firstn]. repeat split; try assumption.
    intros t' [<- | Hin]; [|exact (Hall t' Hin)].
    unfold fails. rewrite Ht0. reflexivity.
  - intros [= <-]. exists 0, t0. cbn. repeat split; [exact Ht0 | tauto].
Qed.

(** Fewer than [c] failing items precede the item whose error
    [Promise.all] takes. *)
Lemma firstRejection_early c items b e :
  reachable (submitWith c items) b ->
  firstRejection task (settled b) = Some e ->
  exists i p,
    nth_error items i = Some p /\ task p = Rejected e /\
    length (filter (fails task) (firstn i items)) < c.
Proof.
  intros Hb Hf.
  destruct (firstRejection_first _ _ Hf) as (j & t & Hj & Hrej & Hok).
  destruct (settledInTurn_reachable _ _ _ Hb j t Hj) as (others & Hlen & Hall).
  exists (slot t), (folder t). split; [|split].
  - exact (settled_at_tasks _ _ _ _ Hb (nth_error_In _ _ Hj)).
  - exact Hrej.
  - rewrite <- (tasksFrom_folders 0 items) at 1.
    rewrite firstn_map, filter_map_length.
    apply (Nat.le_lt_trans _ (length others)); [|exact Hlen].
    apply NoDup_incl_length.
    + apply NoDup_filter.
      pose proof (tasksFrom_NoDup 0 items) as Hnd.
      rewrite <- (firstn_skipn (slot t) (tasksFrom 0 items)) in Hnd.
      apply NoDup_app_remove_r in Hnd. exact Hnd.
    + intros t' Ht'. apply filter_In in Ht'. destruct Ht' as [Hin Hfail].
      destruct (Hall t' Hin) as [Hdone | Hothers]; [|exact Hothers].
      rewrite (Hok t' Hdone) in Hfail. discriminate.
Qed.

End RejectionFacts.

(** ** STAT_FILES_CHANNEL *)

(** Assigning the task results to the result object, one by one. *)
Lemma assignAll_proto (Stats : Type) rs (o : JsObject Stats) :
  fold_left (fun (results : JsObject Stats) (r : string * Stats) =>
               setProperty results (fst r) (snd r)) rs o "__proto__"%string = o "__proto__"%string.
Proof.
  revert o. induction rs as [|r rs IH]; intros o; cbn [fold_left];
    [reflexivity|].
  rewrite IH. unfold setProperty.
  destruct (String.eqb (fst r) "__proto__") eqn:Hk; [reflexivity|].
  rewrite String.eqb_sym, Hk. reflexivity.
Qed.

Lemma assignAll_other (Stats : Type) rs (o : JsObject Stats) k :
  (forall r, In r rs -> fst r <> k) -> fold_left (fun (results : JsObject Stats) (r : string * Stats) =>
               setProperty results (fst r) (snd r)) rs o k = o k.
Proof.
  revert o. induction rs as [|r rs IH]; intros o Hno; cbn [fold_left];
    [reflexivity|].
  rewrite IH by (intros r' Hr'; apply Hno; right; exact Hr').
  unfold setProperty. destruct (String.eqb (fst r) "__proto__"); [reflexivity|].
  destruct (String.eqb k (fst r)) eqn:Hk; [|reflexivity].
  apply String.eqb_eq in Hk. exfalso. apply (Hno r); [left; reflexivity|].
  congruence.
Qed.

Lemma assignAll_key (Stats : Type) rs (o : JsObject Stats) k stats :
  k <> "__proto__"%string ->
  (forall r, In r rs -> fst r = k -> snd r = stats) ->
  o k = Some stats \/ (exists r, In r rs /\ fst r = k) ->
  fold_left (fun (results : JsObject Stats) (r : string * Stats) =>
               setProperty results (fst r) (snd r)) rs o k = Some stats.
Proof.
  intros Hk. revert o. induction rs as [|r rs IH]; intros o Hsame Hsome;
    cbn [fold_left].
  - destruct Hsome as [Ho | (r & [] & _)]. exact Ho.
  - apply IH; [intros r' Hr'; apply Hsame; right; exact Hr'|].
    unfold setProperty.
    destruct (String.eqb (fst r) k) eqn:Hrk.
    + apply String.eqb_eq in Hrk. left.
      destruct (String.eqb (fst r) "__proto__") eqn:Hp.
      * apply String.eqb_eq in Hp. congruence.
      * rewrite String.eqb_sym, (proj2 (String.eqb_eq _ _) Hrk).
        rewrite (Hsame r (or_introl eq_refl) Hrk). reflexivity.
    + apply String.eqb_neq in Hrk.
      destruct Hsome as [Ho | (r' & [<- | Hin] & Hr')].
      * left. destruct (String.eqb (fst r) "__proto__"); [exact Ho|].
        destruct (String.eqb k (fst r)) eqn:Hkr; [|exact Ho].
        apply String.eqb_eq in Hkr. congruence.
      * contradiction.
      * right. exists r'. tauto.
Qed.

Section StatFilesFacts.

Variables Stats Err : Type.
Variable stat : string -> Settled Stats Err.

Local Abbreviation assignAll :=
  (fold_left (fun (results : JsObject Stats) (r : string * Stats) =>
                setProperty results (fst r) (snd r))).

Lemma statTask_fulfilled path r :
  statTask stat path = Fulfilled r <->
  exists stats, stat path = Fulfilled stats /\ r = (path, stats).
Proof.
  unfold statTask, invoke, bind, await, ret.
  destruct (stat path) as [stats|e]; cbn; split.
  - intros [= <-]. exists stats. tauto.
  - intros (stats' & [= <-] & ->). reflexivity.
  - discriminate.
  - intros (stats' & H & _). discriminate.
Qed.

Lemma statTask_rejected path e :
  statTask stat path = Rejected e <-> stat path = Rejected e.
Proof.
  unfold statTask, invoke, bind, await, ret.
  destruct (stat path) as [stats|e']; cbn; split; congruence.
Qed.

Lemma stat_handler_outcome (all : Settled (list (string * Stats)) Err) :
  fst (invoke (handle_STAT_FILES_CHANNEL all)) =
  match all with
  | Fulfilled taskResults => Fulfilled (assignAll taskResults emptyObject)
  | Rejected e => Rejected e
  end.
Proof. destruct all; reflexivity. Qed.

(** What [Promise.all] hands to the handler: per path, in place, the path
    with its stats. *)
Lemma stat_results_in_place filePaths rs :
  length rs = length filePaths ->
  (forall i p, nth_error filePaths i = Some p ->
     exists r, nth_error rs i = Some r /\ statTask stat p = Fulfilled r) ->
  (forall r, In r rs ->
     In (fst r) filePaths /\ stat (fst r) = Fulfilled (snd r)) /\
  (forall p, In p filePaths -> exists r, In r rs /\ fst r = p).
Proof.
  intros Hlen Hpos. split.
  - intros r Hr. apply In_nth_error in Hr. destruct Hr as [i Hi].
    assert (Hil : i < length filePaths).
    { rewrite <- Hlen. apply nth_error_Some. congruence. }
    destruct (nth_error filePaths i) as [p|] eqn:Hp;
      [|apply nth_error_None in Hp; lia].
    destruct (Hpos i p Hp) as (r' & Hr' & Hok).
    rewrite Hi in Hr'. injection Hr' as <-.
    apply statTask_fulfilled in Hok. destruct Hok as (stats & Hs & ->).
    cbn. split; [exact (nth_error_In _ _ Hp) | exact Hs].
  - intros p Hin. apply In_nth_error in Hin. destruct Hin as [i Hi].
    destruct (Hpos i p Hi) as (r & Hr & Hok).
    apply statTask_fulfilled in Hok. destruct Hok as (stats & _ & ->).
    exists (p, stats). split; [exact (nth_error_In _ _ Hr) | reflexivity].
Qed.

End StatFilesFacts.

(** ** Ordering the files of a search result *)

Section OrderByFacts.

Variable JsValue : Type.

Local Abbreviation File := (AddonSearchResultFile JsValue).

Lemma insertByReleaseDate_In (f g : File) (sorted : list File) :
  In g (insertByReleaseDate f sorted) <-> g = f \/ In g sorted.
Proof.
  induction sorted as [|h rest IH]; cbn [insertByReleaseDate].
  - cbn. intuition congruence.
  - destruct (releaseDate h <=? releaseDate f)%N; cbn [In].
    + intuition congruence.
    + rewrite IH. intuition congruence.
Qed.

Lemma orderByReleaseDateDesc_In (g : File) (fs : list File) :
  In g (orderByReleaseDateDesc fs) <-> In g fs.
Proof.
  induction fs as [|f rest IH]; cbn [orderByReleaseDateDesc In]; [tauto|].
  rewrite insertByReleaseDate_In, IH. intuition congruence.
Qed.

(** The file at the head of the ordered list: the first of the newest. *)
Lemma orderByReleaseDateDesc_head (earlier later : list File) (f : File) :
  (forall g, In g earlier -> (releaseDate g < releaseDate f)%N) ->
  (forall g, In g later -> (releaseDate g <= releaseDate f)%N) ->
  hd_error (orderByReleaseDateDesc (earlier ++ f :: later)) = Some f.
Proof.
  intros Hearlier Hlater. induction earlier as [|e earlier IH];
    cbn [app orderByReleaseDateDesc].
  - destruct (orderByReleaseDateDesc later) as [|g rest] eqn:Hs;
      [reflexivity|].
    cbn [insertByReleaseDate].
    assert (Hg : (releaseDate g <= releaseDate f)%N).
    { apply Hlater. apply orderByReleaseDateDesc_In. rewrite Hs.
      left. reflexivity. }
    apply N.leb_le in Hg. rewrite Hg. reflexivity.
  - assert (IH' : hd_error (orderByReleaseDateDesc (earlier ++ f :: later))
                  = Some f).
    { apply IH. intros g Hg. apply Hearlier. right. exact Hg. }
    destruct (orderByReleaseDateDesc (earlier ++ f :: later)) as [|g rest];
      [discriminate|].
    injection IH' as ->. cbn [insertByReleaseDate].
    assert (He : (releaseDate e < releaseDate f)%N).
    { apply Hearlier. left. reflexivity. }
    apply N.leb_gt in He. rewrite He. reflexivity.
Qed.

(** Every non-empty list of files has a first newest file. *)
Lemma first_newest (fs : list File) :
  fs <> [] ->
  exists earlier f later,
    fs = earlier ++ f :: later /\
    (forall g, In g earlier -> (releaseDate g < releaseDate f)%N) /\
    (forall g, In g later -> (releaseDate g <= releaseDate f)%N).
Proof.
  induction fs as [|a rest IH]; [congruence|]. intros _.
  destruct rest as [|b rest'].
  - exists [], a, []. cbn. repeat split; intros g [].
  - destruct IH as (earlier & f & later & Heq & Hearlier & Hlater);
      [discriminate|].
    destruct (N.le_gt_cases (releaseDate f) (releaseDate a)) as [Hle | Hgt].
    + exists [], a, (b :: rest'). cbn [app]. repeat split; [intros g []|].
      intros g Hg. rewrite Heq in Hg. apply in_app_or in Hg.
      destruct Hg as [Hg | [<- | Hg]].
      * apply Hearlier in Hg. lia.
      * exact Hle.
      * apply Hlater in Hg. lia.
    + exists (a :: earlier), f, later. rewrite Heq. cbn [app].
      repeat split; [|exact Hlater].
      intros g [<- | Hg]; [exact Hgt | exact (Hearlier g Hg)].
Qed.

End OrderByFacts.

(* ================================================================== *)
(** * Further theorems on the handlers *)

Lemma budget_reachable b0 b : reachable b0 b -> budget b <= budget b0.
Proof.
  induction 1 as [|b b' _ IH Hs]; [lia|].
  apply step_budget in Hs. lia.
Qed.

(** X1. Whether a batch scan call is fulfilled and what it is fulfilled
    with do not depend on the order in which the scans finish: once some
    interleaving returns a list of results, every interleaving returns
    that list. *)
Theorem scan_results_same_in_all_interleavings (Res Err : Type)
  (scanFolder : string -> Settled Res Err)
  (handler : Settled (list Res) Err -> Action Err (list Res))
  (filePaths : list string) (rs : list Res) (out : Settled (list Res) Err) :
  In handler (scanHandlers Res Err) ->
  returns scanFolder handler filePaths (Fulfilled rs) ->
  returns scanFolder handler filePaths out ->
  out = Fulfilled rs.
Proof.
  intros Hh Hrs Hout.
  destruct (returned_results_positional _ _ scanFolder _ _ _ Hh Hrs)
    as [Hlen Hpos].
  destruct out as [rs'|e].
  - destruct (returned_results_positional _ _ scanFolder _ _ _ Hh Hout)
      as [Hlen' Hpos'].
    f_equal. symmetry.
    exact (positional_unique _ _ scanFolder filePaths rs rs'
             Hlen Hpos Hlen' Hpos').
  - apply (returns_iff _ _ scanFolder _ _ _ Hh) in Hout.
    destruct Hout as (b & Hb & Hs).
    destruct (promiseAll_rejected _ _ scanFolder _ _ _ Hb Hs) as (p & Hin & Hp).
    apply In_nth_error in Hin. destruct Hin as [i Hi].
    destruct (Hpos i p Hi) as (r & _ & Hr). congruence.
Qed.

Lemma sample_scan_returns (evs : list Event) (b : Batch) :
  run evs (submit ["AddOns/WeakAuras"; "AddOns/Details"]%string) = Some b ->
  promiseAll sampleScan 2 (settled b) =
  Done (Fulfilled ["AddOns/WeakAuras"; "AddOns/Details"]%string) ->
  returns sampleScan (@handle_WOWUP_GET_SCAN_RESULTS string FsError)
          ["AddOns/WeakAuras"; "AddOns/Details"]%string
          (Fulfilled ["AddOns/WeakAuras"; "AddOns/Details"]%string).
Proof.
  intros Hrun Hall. exists b, (Fulfilled ["AddOns/WeakAuras"; "AddOns/Details"]%string).
  split; [exact (run_reachable _ _ _ Hrun)|]. split; [exact Hall | reflexivity].
Qed.

(** The two folders finishing in input order and in the opposite order. *)
Lemma scan_results_same_in_all_interleavings_witness :
  Fulfilled ["AddOns/WeakAuras"; "AddOns/Details"]%string =
  Fulfilled (E := FsError) ["AddOns/WeakAuras"; "AddOns/Details"]%string.
Proof.
  refine (scan_results_same_in_all_interleavings string FsError sampleScan
            (@handle_WOWUP_GET_SCAN_RESULTS string FsError)
            ["AddOns/WeakAuras"; "AddOns/Details"]%string
            ["AddOns/WeakAuras"; "AddOns/Details"]%string _ _ _ _).
  - right. left. reflexivity.
  - apply (sample_scan_returns [Start; Start; Settle 0; Settle 0] _ eq_refl).
    reflexivity.
  - apply (sample_scan_returns [Start; Start; Settle 1; Settle 0] _ eq_refl).
    reflexivity.
Defined.

(** X2. When a batch scan call is rejected, the error is the one of a
    failing folder that fewer than two failing folders precede in the
    input: the error of a third or later failing folder is never the one
    reported. *)
Theorem scan_error_among_first_failures (Res Err : Type)
  (scanFolder : string -> Settled Res Err)
  (handler : Settled (list Res) Err -> Action Err (list Res))
  (filePaths : list string) (e : Err) :
  In handler (scanHandlers Res Err) ->
  returns scanFolder handler filePaths (Rejected e) ->
  exists i p,
    nth_error filePaths i = Some p /\ scanFolder p = Rejected e /\
    length (filter (fails scanFolder) (firstn i filePaths)) < scanLimit.
Proof.
  intros Hh Hret. apply (returns_iff _ _ scanFolder _ _ _ Hh) in Hret.
  destruct Hret as (b & Hb & Hs). unfold promiseAll in Hs.
  destruct (firstRejection scanFolder (settled b)) as [e'|] eqn:Hf.
  - injection Hs as ->.
    exact (firstRejection_early _ _ scanFolder scanLimit filePaths b e Hb Hf).
  - destruct (collect _ _ _); discriminate.
Qed.

Lemma scan_error_among_first_failures_witness :
  exists i p,
    nth_error ["AddOns/Details"; "AddOns/Removed"; "AddOns/Gone"]%string i
    = Some p /\
    sampleScan p = Rejected enoent /\
    length (filter (fails sampleScan)
              (firstn i ["AddOns/Details"; "AddOns/Removed"; "AddOns/Gone"]%string))
    < scanLimit.
Proof.
  refine (scan_error_among_first_failures string FsError sampleScan
            (@handle_CURSE_GET_SCAN_RESULTS string FsError)
            ["AddOns/Details"; "AddOns/Removed"; "AddOns/Gone"]%string
            enoent (or_introl eq_refl) _).
  exists {| limiter := {| concurrency := 2; queue := [];
                          running := [{| slot := 0; folder := "AddOns/Details" |};
                                      {| slot := 2; folder := "AddOns/Gone" |}] |};
            settled := [{| slot := 1; folder := "AddOns/Removed" |}] |},
         (Rejected enoent).
  split; [|split; reflexivity].
  apply (run_reachable [Start; Start; Settle 1]).
  reflexivity.
Defined.

(** X3. Once [map] has queued the calls of a handler on [pLimit(c)] and
    the check of each call has run, no place is idle while a call waits:
    at every instant from then on the queue is empty or exactly [c] calls
    run, so that the calls running are as many as the limit and the calls
    not yet settled allow.  Nothing is started on its own any more: a
    call leaves the queue only when a running call settles, and the
    settlement starts the head of the queue in the same step. *)
Theorem no_idle_place_while_queued (c : nat) (items : list string) (b : Batch) :
  reachable (launched c items) b ->
  reachable (submitWith c items) b /\
  (queue (limiter b) <> [] -> activeCount (limiter b) = c) /\
  activeCount (limiter b) = Nat.min c (length items - length (settled b)) /\
  fire Start b = None /\
  (forall k b' t q,
     fire (Settle k) b = Some b' -> queue (limiter b) = t :: q ->
     queue (limiter b') = q /\ In t (running (limiter b')) /\
     activeCount (limiter b') = c).
Proof.
  intros Hb.
  assert (Hall : reachable (submitWith c items) b).
  { exact (reachable_trans _ _ _ (launched_reachable c items) Hb). }
  pose proof (placesFilled_reachable _ _ _ Hb) as Hf.
  pose proof (wellFormedAt_reachable _ _ _ Hall) as (Hc & Hn & Hfifo).
  pose proof (Permutation_length (fifo_partition _ _ Hfifo)) as Hlen.
  rewrite !length_app, tasksFrom_length in Hlen.
  assert (Hbusy : queue (limiter b) <> [] -> activeCount (limiter b) = c).
  { intros Hq. destruct Hf as [Hf | Hf]; [contradiction | congruence]. }
  split; [exact Hall|]. split; [exact Hbusy|]. split; [|split].
  - unfold placesFilled, activeCount in *.
    destruct Hf as [Hf | Hf]; [rewrite Hf in Hlen; cbn [length] in Hlen|];
      lia.
  - exact (placesFilled_no_start b Hf).
  - intros k b' t q Hfire Hq.
    assert (Hb' : reachable (launched c items) b').
    { apply (reach_step Hb). exists (Settle k). exact Hfire. }
    pose proof (placesFilled_reachable _ _ _ Hb') as Hf'.
    pose proof (wellFormedAt_reachable _ _ _
                  (reachable_trans _ _ _ (launched_reachable c items) Hb'))
      as (Hc' & _).
    assert (Hc0 : activeCount (limiter b) = c).
    { apply Hbusy. rewrite Hq. discriminate. }
    unfold fire, next in Hfire. rewrite Hq in Hfire.
    destruct (nth_error (running (limiter b)) k) as [t0|] eqn:Hk;
      [|discriminate].
    destruct (take_out _ _ _ Hk) as [_ Hrest].
    apply nth_error_lt in Hk.
    set (rest := firstn k (running (limiter b)) ++
                 skipn (S k) (running (limiter b))) in *.
    injection Hfire as <-. unfold activeCount in *.
    cbn [limiter queue running]. split; [reflexivity|]. split.
    + apply in_or_app. right. left. reflexivity.
    + rewrite length_app, Hrest. cbn [length]. lia.
Qed.

Lemma no_idle_place_while_queued_witness :
  run [Settle 1] (launched 3 ["a"; "b"; "c"; "d"; "e"]%string) =
  Some {| limiter :=
            {| concurrency := 3;
               queue := [{| slot := 4; folder := "e" |}];
               running := [{| slot := 0; folder := "a" |};
                           {| slot := 2; folder := "c" |};
                           {| slot := 3; folder := "d" |}] |};
          settled := [{| slot := 1; folder := "b" |}] |} /\
  activeCount
    {| concurrency := 3;
       queue := [{| slot := 4; folder := "e" |}];
       running := [{| slot := 0; folder := "a" |};
                   {| slot := 2; folder := "c" |};
                   {| slot := 3; folder := "d" |}] |} = 3.
Proof.
  split; [reflexivity|].
  refine (proj1 (proj2 (no_idle_place_while_queued 3
                          ["a"; "b"; "c"; "d"; "e"]%string
                          {| limiter := _;
                             settled := [{| slot := 1; folder := "b" |}] |}
                          _)) _).
  - apply (run_reachable [Settle 1]). reflexivity.
  - discriminate.
Defined.

(** X4. At every instant of a STAT_FILES_CHANNEL call at most three
    [fs.stat] calls are in flight, and the calls are started in the order
    of [filePaths]: the started ones are a prefix of the input. *)
Theorem stat_calls_bounded (filePaths : list string) (b : Batch) :
  reachable (submitWith statLimit filePaths) b ->
  statLimit = 3 /\
  activeCount (limiter b) <= statLimit /\
  exists started,
    tasksFrom 0 filePaths = started ++ queue (limiter b) /\
    Permutation started (running (limiter b) ++ settled b).
Proof.
  intros Hb. destruct (wellFormedAt_reachable _ _ _ Hb) as (_ & Hn & Hf).
  split; [reflexivity|]. split; [exact Hn | exact Hf].
Qed.

Lemma stat_calls_bounded_witness :
  run [Start; Start; Start; Start]
      (submitWith statLimit ["a"; "b"; "c"; "d"]%string) = None /\
  activeCount
    {| concurrency := 3;
       queue := [{| slot := 3; folder := "d" |}];
       running := [{| slot := 0; folder := "a" |};
                   {| slot := 1; folder := "b" |};
                   {| slot := 2; folder := "c" |}] |} <= statLimit.
Proof.
  split; [reflexivity|].
  refine (proj1 (proj2 (stat_calls_bounded ["a"; "b"; "c"; "d"]%string
                          {| limiter := _; settled := [] |} _))).
  apply (run_reachable [Start; Start; Start]). reflexivity.
Defined.

(** X5. The object a STAT_FILES_CHANNEL call returns holds, under every
    requested path, the stats of that path, and no other key; a path
    spelled ["__proto__"] is the exception and is never a key of the
    result. *)
Theorem stat_results_by_path (Stats Err : Type)
  (stat : string -> Settled Stats Err)
  (filePaths : list string) (results : JsObject Stats) :
  returnsWith (statTask stat) statLimit
              (@handle_STAT_FILES_CHANNEL Stats Err) filePaths
              (Fulfilled results) ->
  (forall p, In p filePaths -> p <> "__proto__"%string ->
     exists stats, stat p = Fulfilled stats /\ results p = Some stats) /\
  (forall p, ~ In p filePaths -> results p = None) /\
  results "__proto__"%string = None.
Proof.
  intros (b & s & Hb & Hs & Hout). rewrite (stat_handler_outcome Stats Err) in Hout.
  destruct s as [rs|e]; [|discriminate]. injection Hout as <-.
  destruct (promiseAll_fulfilled_at _ _ (statTask stat) _ _ _ _ Hb Hs)
    as [Hlen Hpos].
  destruct (stat_results_in_place _ _ stat _ _ Hlen Hpos) as [Hall Hsome].
  split; [|split].
  - intros p Hin Hp. destruct (Hsome p Hin) as (r & Hr & Hfst).
    exists (snd r). destruct (Hall r Hr) as [_ Hstat]. rewrite Hfst in Hstat.
    split; [exact Hstat|].
    apply (assignAll_key Stats rs emptyObject p (snd r) Hp).
    + intros r' Hr' Hfst'. destruct (Hall r' Hr') as [_ Hstat'].
      rewrite Hfst' in Hstat'. congruence.
    + right. exists r. tauto.
  - intros p Hp. rewrite (assignAll_other Stats); [reflexivity|].
    intros r Hr Hfst. apply Hp. rewrite <- Hfst. exact (proj1 (Hall r Hr)).
  - apply (assignAll_proto Stats).
Qed.

Lemma stat_results_by_path_witness :
  exists results : JsObject nat,
    results "Foo/Foo.lua"%string = Some 4096 /\
    results "Foo/Foo.toc"%string = Some 120 /\
    results "__proto__"%string = None.
Proof.
  pose (results :=
          fold_left (fun (o : JsObject nat) (r : string * nat) =>
                       setProperty o (fst r) (snd r))
                    [("Foo/Foo.lua"%string, 4096); ("Foo/Foo.toc"%string, 120);
                     ("Foo/Foo.lua"%string, 4096)] emptyObject).
  exists results.
  destruct (stat_results_by_path nat FsError sampleStat
              ["Foo/Foo.lua"; "Foo/Foo.toc"; "Foo/Foo.lua"]%string results)
    as (Hkey & _ & Hproto).
  - exists {| limiter := {| concurrency := 3; queue := []; running := [] |};
              settled := [{| slot := 1; folder := "Foo/Foo.toc" |};
                          {| slot := 0; folder := "Foo/Foo.lua" |};
                          {| slot := 2; folder := "Foo/Foo.lua" |}] |},
           (Fulfilled [("Foo/Foo.lua"%string, 4096); ("Foo/Foo.toc"%string, 120);
                       ("Foo/Foo.lua"%string, 4096)]).
    split; [|split; reflexivity].
    apply (run_reachable [Start; Start; Start; Settle 1; Settle 0; Settle 0]).
    reflexivity.
  - split; [|split; [|exact Hproto]].
    + destruct (Hkey "Foo/Foo.lua"%string) as (stats & Hs & ->);
        [left; reflexivity | discriminate |].
      injection Hs as <-. reflexivity.
    + destruct (Hkey "Foo/Foo.toc"%string) as (stats & Hs & ->);
        [right; left; reflexivity | discriminate |].
      injection Hs as <-. reflexivity.
Defined.

(** X6. A STAT_FILES_CHANNEL call returns an object exactly when
    [fs.stat] succeeds for every path; when it fails for some path the
    call is rejected as a whole, with the error of a failing path, and no
    stats are returned for any path. *)
Theorem stat_fails_as_a_whole (Stats Err : Type)
  (stat : string -> Settled Stats Err) (filePaths : list string) :
  ((exists results,
      returnsWith (statTask stat) statLimit
                  (@handle_STAT_FILES_CHANNEL Stats Err) filePaths
                  (Fulfilled results)) <->
   (forall p, In p filePaths -> exists stats, stat p = Fulfilled stats)) /\
  (forall e,
     returnsWith (statTask stat) statLimit
                 (@handle_STAT_FILES_CHANNEL Stats Err) filePaths (Rejected e) ->
     exists p, In p filePaths /\ stat p = Rejected e) /\
  (forall p e, In p filePaths -> stat p = Rejected e ->
     exists e',
       returnsWith (statTask stat) statLimit
                   (@handle_STAT_FILES_CHANNEL Stats Err) filePaths
                   (Rejected e')).
Proof.
  assert (Hpos : 0 < statLimit) by (unfold statLimit; lia).
  split; [split|split].
  - intros (results & b & s & Hb & Hs & Hout).
    rewrite (stat_handler_outcome Stats Err) in Hout.
    destruct s as [rs|e]; [|discriminate].
    destruct (promiseAll_fulfilled_at _ _ (statTask stat) _ _ _ _ Hb Hs)
      as [_ Hall].
    intros p Hin. apply In_nth_error in Hin. destruct Hin as [i Hi].
    destruct (Hall i p Hi) as (r & _ & Hr).
    apply statTask_fulfilled in Hr. destruct Hr as (stats & Hstat & _).
    exists stats. exact Hstat.
  - intros Hall. destruct (drains_at statLimit filePaths Hpos) as (b & Hb & Hd).
    destruct (promiseAll_drained_fulfilled_at _ _ (statTask stat) _ _ _ Hb Hd)
      as [rs Hrs].
    + intros p Hin. destruct (Hall p Hin) as [stats Hstat].
      exists (p, stats). apply statTask_fulfilled. exists stats. tauto.
    + eexists. exists b, (Fulfilled rs). split; [exact Hb|].
      split; [exact Hrs|]. rewrite (stat_handler_outcome Stats Err). reflexivity.
  - intros e (b & s & Hb & Hs & Hout). rewrite (stat_handler_outcome Stats Err) in Hout.
    destruct s as [rs|e']; [discriminate|]. injection Hout as ->.
    destruct (promiseAll_rejected_at _ _ (statTask stat) _ _ _ _ Hb Hs)
      as (p & Hin & Hp).
    exists p. split; [exact Hin|]. apply statTask_rejected. exact Hp.
  - intros p e Hin Hrej.
    destruct (drains_at statLimit filePaths Hpos) as (b & Hb & Hd).
    apply statTask_rejected in Hrej.
    destruct (promiseAll_drained_rejected_at _ _ (statTask stat) _ _ _ _ _
                Hb Hd Hin Hrej) as [e' He'].
    exists e', b, (Rejected e'). split; [exact Hb|].
    split; [exact He'|]. rewrite (stat_handler_outcome Stats Err). reflexivity.
Qed.

(** X7. While the window is there, the download listener never rejects,
    and it answers a request with one message, on the request's
    [responseKey], once the request and the write have come to an end: a
    [Complete] status with the joined save path when both succeeded, and
    otherwise an [Error] status with the error, which is logged.  As long
    as the request is not answered or the writer reports neither "finish"
    nor "error", the listener waits: it sends no message and logs
    nothing.  Once the window is destroyed no message is sent at all; the
    listener then rejects with the error that [window.webContents]
    throws, or waits as before. *)
Theorem download_replies_once (Stream Err : Type)
  (pathJoin : string -> string -> string)
  (axiosGet : string -> PromiseState Stream Err)
  (pipeTo : Stream -> string -> PromiseState unit Err)
  (arg : DownloadRequest) :
  ((forall e,
      fst (listen (handle_DOWNLOAD_FILE_CHANNEL pathJoin axiosGet pipeTo
                     None arg)) <> Done (Rejected e)) /\
   (transfer pathJoin axiosGet pipeTo arg = Pending ->
    listen (handle_DOWNLOAD_FILE_CHANNEL pathJoin axiosGet pipeTo None arg)
    = (Pending, [])) /\
   (forall s,
      transfer pathJoin axiosGet pipeTo arg = Done s ->
      fst (listen (handle_DOWNLOAD_FILE_CHANNEL pathJoin axiosGet pipeTo
                     None arg)) = Done (Fulfilled tt) /\
      exists status,
        sentMessages
          (snd (listen (handle_DOWNLOAD_FILE_CHANNEL pathJoin axiosGet pipeTo
                          None arg)))
        = [(responseKey arg, status)] /\
        (type status = Complete <-> s = Fulfilled tt) /\
        (type status = Complete ->
         savePath status = Some (pathJoin (outputFolder arg) (fileName arg)) /\
         error status = None) /\
        (type status = Error ->
         exists e,
           s = Rejected e /\ error status = Some e /\
           In (Logged (LogError ""%string e))
              (snd (listen (handle_DOWNLOAD_FILE_CHANNEL pathJoin axiosGet
                              pipeTo None arg)))))) /\
  (forall gone,
     sentMessages
       (snd (listen (handle_DOWNLOAD_FILE_CHANNEL pathJoin axiosGet pipeTo
                       (Some gone) arg))) = [] /\
     (transfer pathJoin axiosGet pipeTo arg = Pending ->
      listen (handle_DOWNLOAD_FILE_CHANNEL pathJoin axiosGet pipeTo
                (Some gone) arg) = (Pending, [])) /\
     (forall s,
        transfer pathJoin axiosGet pipeTo arg = Done s ->
        fst (listen (handle_DOWNLOAD_FILE_CHANNEL pathJoin axiosGet pipeTo
                       (Some gone) arg)) = Done (Rejected gone))).
Proof.
  unfold listen, handle_DOWNLOAD_FILE_CHANNEL, transfer, catching, continue,
    waitFor, send, output, thrown.
  split.
  - destruct (axiosGet (url arg)) as [|[data|e]]; cbn.
    + split; [discriminate|]. split; [reflexivity|]. discriminate.
    + destruct (pipeTo data (pathJoin (outputFolder arg) (fileName arg)))
        as [|[[]|e]]; cbn.
      * split; [discriminate|]. split; [reflexivity|]. discriminate.
      * split; [discriminate|]. split; [discriminate|].
        intros s [= <-]. split; [reflexivity|].
        eexists. split; [reflexivity|]. cbn.
        repeat split; try reflexivity; discriminate.
      * split; [discriminate|]. split; [discriminate|].
        intros s [= <-]. split; [reflexivity|].
        eexists. split; [reflexivity|]. cbn.
        repeat split; try discriminate.
        intros _. exists e. repeat split. left. reflexivity.
    + split; [discriminate|]. split; [discriminate|].
      intros s [= <-]. split; [reflexivity|].
      eexists. split; [reflexivity|]. cbn.
      repeat split; try discriminate.
      intros _. exists e. repeat split. left. reflexivity.
  - intros gone. destruct (axiosGet (url arg)) as [|[data|e]]; cbn.
    + split; [reflexivity|]. split; [reflexivity|]. discriminate.
    + destruct (pipeTo data (pathJoin (outputFolder arg) (fileName arg)))
        as [|[[]|e]]; cbn;
        (split; [reflexivity|]); split;
        try reflexivity; try discriminate; intros s _; reflexivity.
    + split; [reflexivity|]. split; [discriminate|]. intros s _. reflexivity.
Qed.

(** A request that is answered, with a response stream that fails before
    the writer has anything to report: the listener never answers. *)
Lemma download_replies_once_witness :
  listen (handle_DOWNLOAD_FILE_CHANNEL (Err := FsError) append
            (fun _ => Done (Fulfilled tt)) (fun _ _ => Pending) None
            {| url := "https://addons.example/foo.zip";
               outputFolder := "downloads/"; fileName := "foo.zip";
               responseKey := "download-1" |})
  = (Pending, []).
Proof.
  refine (proj1 (proj2 (proj1 (download_replies_once unit FsError append
                   (fun _ => Done (Fulfilled tt)) (fun _ _ => Pending)
                   {| url := "https://addons.example/foo.zip";
                      outputFolder := "downloads/"; fileName := "foo.zip";
                      responseKey := "download-1" |}))) _).
  reflexivity.
Defined.

(* ================================================================== *)
(** * Theorems on the store handlers *)

(** X8. For a store name that is neither of the two registered names,
    [IPC_STORE_GET_ALL] always throws.  The other three handlers depend
    on the name: one that [Object.prototype] knows ("constructor",
    "toString", "__proto__", ...) makes them throw too and leaves the
    stores as they are; any other name makes [IPC_STORE_GET_OBJECT]
    answer [undefined] and makes [IPC_STORE_SET_OBJECT] and
    [IPC_STORE_REMOVE_OBJECT] do nothing, without an error even for the
    value [undefined]. *)
Theorem unregistered_store_name (Prim Obj Store : Type)
  (primToString : Prim -> string) (objectToString : Obj -> string)
  (storeGet : Store -> string -> Value Prim Obj)
  (storeSet : Store -> string -> Value Prim Obj -> Settled Store JsError)
  (storeDelete : Store -> string -> Store)
  (storeEntries : Store -> list (string * Value Prim Obj))
  (ADDON_STORE_NAME PREFERENCE_STORE_NAME : string)
  (stores : Stores Store) (storeName key : string) (value : Value Prim Obj) :
  storeName <> ADDON_STORE_NAME ->
  storeName <> PREFERENCE_STORE_NAME ->
  handle_IPC_STORE_GET_ALL storeEntries ADDON_STORE_NAME PREFERENCE_STORE_NAME
    stores storeName = Rejected TypeError /\
  (In storeName objectPrototypeMembers ->
   handle_IPC_STORE_GET_OBJECT storeGet ADDON_STORE_NAME PREFERENCE_STORE_NAME
     stores storeName key = Rejected TypeError /\
   handle_IPC_STORE_SET_OBJECT primToString objectToString storeSet
     ADDON_STORE_NAME PREFERENCE_STORE_NAME stores storeName key value
   = (Rejected TypeError, stores) /\
   handle_IPC_STORE_REMOVE_OBJECT storeDelete ADDON_STORE_NAME
     PREFERENCE_STORE_NAME stores storeName key
   = (Rejected TypeError, stores)) /\
  (~ In storeName objectPrototypeMembers ->
   handle_IPC_STORE_GET_OBJECT storeGet ADDON_STORE_NAME PREFERENCE_STORE_NAME
     stores storeName key = Fulfilled VUndefined /\
   handle_IPC_STORE_SET_OBJECT primToString objectToString storeSet
     ADDON_STORE_NAME PREFERENCE_STORE_NAME stores storeName key value
   = (Fulfilled tt, stores) /\
   handle_IPC_STORE_REMOVE_OBJECT storeDelete ADDON_STORE_NAME
     PREFERENCE_STORE_NAME stores storeName key
   = (Fulfilled tt, stores)).
Proof.
  intros Ha Hp.
  apply String.eqb_neq in Ha, Hp.
  unfold handle_IPC_STORE_GET_ALL, handle_IPC_STORE_GET_OBJECT,
    handle_IPC_STORE_SET_OBJECT, handle_IPC_STORE_REMOVE_OBJECT, onStore,
    lookupStore.
  rewrite Ha, Hp.
  destruct (existsb (String.eqb storeName) objectPrototypeMembers) eqn:Hm.
  - split; [reflexivity|]. split.
    + intros _. destruct (isObject value); repeat split; reflexivity.
    + intros Hno. exfalso. apply Hno. apply existsb_exists in Hm.
      destruct Hm as (m & Hin & Heq). apply String.eqb_eq in Heq.
      subst m. exact Hin.
  - split; [reflexivity|]. split.
    + intros Hin. exfalso.
      assert (Hex : existsb (String.eqb storeName) objectPrototypeMembers
                    = true).
      { apply existsb_exists. exists storeName.
        split; [exact Hin | apply String.eqb_refl]. }
      congruence.
    + intros _. destruct (isObject value); repeat split; reflexivity.
Qed.

Lemma unregistered_store_name_witness :
  handle_IPC_STORE_GET_OBJECT listGet "addons" "preferences"
    {| addonStore := [("a"%string, VString "1")];
       preferenceStore := ([] : list (string * Value bool unit)) |}
    "addon" "a" = Fulfilled VUndefined /\
  handle_IPC_STORE_GET_ALL (fun s => s) "addons" "preferences"
    {| addonStore := [("a"%string, VString "1")];
       preferenceStore := ([] : list (string * Value bool unit)) |}
    "addon" = Rejected TypeError.
Proof.
  destruct (unregistered_store_name bool unit (list (string * Value bool unit))
              boolToString (fun _ => "[object Object]"%string)
              listGet listSet listDelete (fun s => s)
              "addons"%string "preferences"%string
              {| addonStore := [("a"%string, VString "1")];
                 preferenceStore := [] |}
              "addon"%string "a"%string VUndefined)
    as (Hall & _ & Hmissing).
  - discriminate.
  - discriminate.
  - split; [|exact Hall]. apply Hmissing.
    cbn. intros H. repeat destruct H as [H | H]; try discriminate H.
    exact H.
Defined.

(** X9. Writing to a registered store and reading the key back.  The
    value [undefined] is refused with a TypeError before the store is
    asked, and changes nothing.  For any other value the named store is
    asked once to set the key, to the value as it was sent when it is an
    object, [null] or a string, and to the string [value.toString()] when
    it is any other primitive (a boolean, a number).  When the store
    refuses (as it does for a key it keeps for itself), the handler
    throws the store's error and both stores stay as they were.  When the
    store accepts, the handler returns, the name then stands for the
    store as written, a read of the key asks that store, and the other
    store is as it was. *)
Theorem store_set_then_get (Prim Obj Store : Type)
  (primToString : Prim -> string) (objectToString : Obj -> string)
  (storeGet : Store -> string -> Value Prim Obj)
  (storeSet : Store -> string -> Value Prim Obj -> Settled Store JsError)
  (ADDON_STORE_NAME PREFERENCE_STORE_NAME : string)
  (stores : Stores Store) (storeName key : string) (value : Value Prim Obj)
  (store : Store) :
  namedStore ADDON_STORE_NAME PREFERENCE_STORE_NAME stores storeName
  = Some store ->
  (value = VUndefined ->
   handle_IPC_STORE_SET_OBJECT primToString objectToString storeSet
     ADDON_STORE_NAME PREFERENCE_STORE_NAME stores storeName key value
   = (Rejected TypeError, stores)) /\
  (value <> VUndefined ->
   (forall e,
      storeSet store key (kept primToString value) = Rejected e ->
      handle_IPC_STORE_SET_OBJECT primToString objectToString storeSet
        ADDON_STORE_NAME PREFERENCE_STORE_NAME stores storeName key value
      = (Rejected e, stores)) /\
   (forall store',
      storeSet store key (kept primToString value) = Fulfilled store' ->
      exists stores',
        handle_IPC_STORE_SET_OBJECT primToString objectToString storeSet
          ADDON_STORE_NAME PREFERENCE_STORE_NAME stores storeName key value
        = (Fulfilled tt, stores') /\
        namedStore ADDON_STORE_NAME PREFERENCE_STORE_NAME stores' storeName
        = Some store' /\
        handle_IPC_STORE_GET_OBJECT storeGet ADDON_STORE_NAME
          PREFERENCE_STORE_NAME stores' storeName key
        = Fulfilled (storeGet store' key) /\
        (storeName <> PREFERENCE_STORE_NAME ->
         preferenceStore stores' = preferenceStore stores) /\
        (storeName = PREFERENCE_STORE_NAME ->
         addonStore stores' = addonStore stores))).
Proof.
  unfold namedStore, handle_IPC_STORE_SET_OBJECT, handle_IPC_STORE_GET_OBJECT,
    onStore.
  intros Hname.
  assert (Hentry :
    lookupStore ADDON_STORE_NAME PREFERENCE_STORE_NAME storeName
    = ThePreferenceStore /\ storeName = PREFERENCE_STORE_NAME /\
    store = preferenceStore stores \/
    lookupStore ADDON_STORE_NAME PREFERENCE_STORE_NAME storeName
    = TheAddonStore /\ storeName <> PREFERENCE_STORE_NAME /\
    store = addonStore stores).
  { revert Hname. unfold lookupStore.
    destruct (String.eqb storeName PREFERENCE_STORE_NAME) eqn:Hp.
    - intros [= <-]. left. apply String.eqb_eq in Hp. tauto.
    - apply String.eqb_neq in Hp.
      destruct (String.eqb storeName ADDON_STORE_NAME).
      + intros [= <-]. right. tauto.
      + destruct (existsb (String.eqb storeName) objectPrototypeMembers);
          discriminate. }
  split.
  - intros ->.
    destruct Hentry as [(Hl & _) | (Hl & _)]; rewrite Hl; reflexivity.
  - intros Hdef. split.
    + intros e Hset.
      destruct Hentry as [(Hl & _ & ->) | (Hl & _ & ->)]; rewrite Hl;
        destruct value as [| |s|p|o]; cbn [isObject toString kept] in *;
        try contradiction; rewrite Hset; reflexivity.
    + intros store' Hset.
      destruct Hentry as [(Hl & Hp & ->) | (Hl & Hp & ->)]; rewrite Hl;
        destruct value as [| |s|p|o]; cbn [isObject toString kept] in *;
        try contradiction; rewrite Hset;
        eexists; (split; [reflexivity|]); rewrite ?Hl;
        cbn [addonStore preferenceStore];
        repeat split; intros; try contradiction; reflexivity.
Qed.

Lemma store_set_then_get_witness :
  (exists stores',
     handle_IPC_STORE_SET_OBJECT boolToString
       (fun _ : unit => "[object Object]"%string)
       listSet "addons" "preferences"
       {| addonStore := ([] : list (string * Value bool unit));
          preferenceStore := [] |}
       "preferences" "collapse_to_tray" (VPrimitive true)
     = (Fulfilled tt, stores') /\
     handle_IPC_STORE_GET_OBJECT listGet "addons" "preferences" stores'
       "preferences" "collapse_to_tray" = Fulfilled (VString "true")) /\
  handle_IPC_STORE_SET_OBJECT boolToString
    (fun _ : unit => "[object Object]"%string)
    listSet "addons" "preferences"
    {| addonStore := ([] : list (string * Value bool unit));
       preferenceStore := [] |}
    "preferences" "__internal__.migrations" (VPrimitive true)
  = (Rejected TypeError,
     {| addonStore := []; preferenceStore := [] |}).
Proof.
  split.
  - destruct (store_set_then_get bool unit (list (string * Value bool unit))
                boolToString (fun _ => "[object Object]"%string)
                listGet listSet "addons"%string "preferences"%string
                {| addonStore := []; preferenceStore := [] |}
                "preferences"%string "collapse_to_tray"%string
                (VPrimitive true) [] eq_refl)
      as (_ & Hset).
    destruct Hset as (_ & Hok); [discriminate|].
    destruct (Hok [("collapse_to_tray"%string, VString "true")] eq_refl)
      as (stores' & Hs & _ & Hg & _).
    exists stores'. split; [exact Hs | exact Hg].
  - destruct (store_set_then_get bool unit (list (string * Value bool unit))
                boolToString (fun _ => "[object Object]"%string)
                listGet listSet "addons"%string "preferences"%string
                {| addonStore := []; preferenceStore := [] |}
                "preferences"%string "__internal__.migrations"%string
                (VPrimitive true) [] eq_refl)
      as (_ & Hset).
    destruct Hset as (Hrefused & _); [discriminate|].
    exact (Hrefused TypeError eq_refl).
Defined.

(* ================================================================== *)
(** * Theorems on the pipe and the options component *)

(** X10. When [getLatestFile] finds no file for the channel and the search
    result has files, the pipe answers from the file with the latest
    release date, the first such file in the list if several share that
    date: the answer is that file's own property [prop], or the empty
    string if the file has no such property. *)
Theorem transform_falls_back_to_newest (JsValue AddonChannelType : Type)
  (emptyString : JsValue)
  (getLatestFile : AddonSearchResult JsValue -> AddonChannelType ->
                   option (AddonSearchResultFile JsValue))
  (item : GetAddonListItem JsValue) (prop : string)
  (channel : AddonChannelType) :
  getLatestFile (searchResult item) channel = None ->
  files (searchResult item) <> [] ->
  exists earlier f later,
    files (searchResult item) = earlier ++ f :: later /\
    (forall g, In g earlier -> (releaseDate g < releaseDate f)%N) /\
    (forall g, In g later -> (releaseDate g <= releaseDate f)%N) /\
    transform emptyString getLatestFile item prop channel =
    match ownProperty f prop with
    | Some value => value
    | None => emptyString
    end.
Proof.
  intros Hnone Hfiles.
  destruct (first_newest JsValue _ Hfiles)
    as (earlier & f & later & Heq & Hearlier & Hlater).
  exists earlier, f, later. repeat split; try assumption.
  unfold transform. rewrite Hnone, Heq.
  rewrite (orderByReleaseDateDesc_head JsValue earlier later f Hearlier Hlater).
  reflexivity.
Qed.

Lemma transform_falls_back_to_newest_witness :
  transform ""%string (fun _ (_ : unit) => None) sampleItem "version" tt
  = "2.0"%string /\
  exists earlier f later,
    files (searchResult sampleItem) = earlier ++ f :: later /\
    (forall g, In g earlier -> (releaseDate g < releaseDate f)%N) /\
    (forall g, In g later -> (releaseDate g <= releaseDate f)%N) /\
    transform ""%string (fun _ (_ : unit) => None) sampleItem "version" tt =
    match ownProperty f "version" with
    | Some value => value
    | None => ""%string
    end.
Proof.
  split; [reflexivity|].
  apply (transform_falls_back_to_newest string unit ""%string
           (fun _ _ => None) sampleItem "version"%string tt eq_refl).
  discriminate.
Defined.

Section OptionsWowSectionFacts.

Variables WowInstallation Err : Type.
Variable selectWowClientPath : Settled (option string) Err.
Variable isWowApplication : string -> Settled bool Err.
Variable createWowInstallationForPath : string -> Settled WowInstallation Err.
Variable instant : string -> option string -> string.

Local Abbreviation run_onAddNew :=
  (perform (onAddNew selectWowClientPath isWowApplication
                     createWowInstallationForPath instant)).

(** What [onAddNew] does, case by case. *)
Lemma onAddNew_outcome :
  run_onAddNew =
  (Fulfilled tt,
   match selectWowClientPath with
   | Rejected e => [ConsoleError e]
   | Fulfilled None => []
   | Fulfilled (Some path) =>
       if String.eqb path "" then []
       else
         ConsoleLog "dialogResult" (LoggedPath WowInstallation path) ::
         match isWowApplication path with
         | Rejected e => [ConsoleError e]
         | Fulfilled false =>
             [DialogOpen
                (instant "DIALOGS.ALERT.ERROR_TITLE" None)
                (instant "DIALOGS.SELECT_INSTALLATION.INVALID_INSTALLATION_PATH"
                         (Some path))]
         | Fulfilled true =>
             ConsoleLog "isWowApplication" (LoggedAnswer WowInstallation true) ::
             match createWowInstallationForPath path with
             | Rejected e => [ConsoleError e]
             | Fulfilled i =>
                 [ConsoleLog "wowInstallation" (LoggedInstallation i);
                  AddInstallation i]
             end
         end
   end).
Proof.
  unfold perform, onAddNew, addNewClient, attempt, andThen, awaiting,
    showInvalidWowApplication, showError, emit, done.
  destruct selectWowClientPath as [[path|]|e]; cbn; try reflexivity.
  destruct (String.eqb path ""); cbn; [reflexivity|].
  destruct (isWowApplication path) as [[|]|e]; cbn; try reflexivity.
  destruct (createWowInstallationForPath path) as [i|e]; reflexivity.
Qed.

End OptionsWowSectionFacts.

(** X11. [onAddNew] never lets an error out.  It adds an installation
    exactly when the user picked a non-empty path, [isWowApplication]
    answered [true] for it and the installation could be created, and the
    installation added is the one created for that path.  It opens the
    alert exactly when a non-empty path was picked and [isWowApplication]
    answered [false], with the translated invalid-path message for that
    path. *)
Theorem add_new_client_guarded (WowInstallation Err : Type)
  (selectWowClientPath : Settled (option string) Err)
  (isWowApplication : string -> Settled bool Err)
  (createWowInstallationForPath : string -> Settled WowInstallation Err)
  (instant : string -> option string -> string) :
  fst (perform (onAddNew selectWowClientPath isWowApplication
                         createWowInstallationForPath instant))
  = Fulfilled tt /\
  (forall i,
     In (AddInstallation i)
        (snd (perform (onAddNew selectWowClientPath isWowApplication
                                createWowInstallationForPath instant))) <->
     exists path,
       selectWowClientPath = Fulfilled (Some path) /\ path <> ""%string /\
       isWowApplication path = Fulfilled true /\
       createWowInstallationForPath path = Fulfilled i) /\
  (forall title message,
     In (DialogOpen title message)
        (snd (perform (onAddNew selectWowClientPath isWowApplication
                                createWowInstallationForPath instant))) <->
     exists path,
       selectWowClientPath = Fulfilled (Some path) /\ path <> ""%string /\
       isWowApplication path = Fulfilled false /\
       title = instant "DIALOGS.ALERT.ERROR_TITLE"%string None /\
       message =
       instant "DIALOGS.SELECT_INSTALLATION.INVALID_INSTALLATION_PATH"%string
               (Some path)).
Proof.
  rewrite onAddNew_outcome. cbn [fst snd].
  split; [reflexivity|].
  destruct selectWowClientPath as [[path|]|e].
  2,3: split; intros; (split; [cbn; intros H | intros (p & H & _)]);
       try discriminate; repeat destruct H as [H | H]; try discriminate H;
       contradiction.
  destruct (String.eqb path "") eqn:Hempty.
  { apply String.eqb_eq in Hempty.
    split; intros; (split; [intros [] | intros (p & H & Hne & _)]).
    all: injection H as <-; contradiction. }
  apply String.eqb_neq in Hempty.
  destruct (isWowApplication path) as [[|]|e] eqn:Hwow.
  - destruct (createWowInstallationForPath path) as [i0|e] eqn:Hcreate.
    + split.
      * intros i. split.
        -- cbn. intros H. repeat destruct H as [H | H]; try discriminate H;
             try contradiction.
           injection H as <-. exists path. tauto.
        -- intros (p & H & _ & _ & Hc). injection H as <-.
           rewrite Hcreate in Hc. injection Hc as <-. cbn. tauto.
      * intros title message. split.
        -- cbn. intros H. repeat destruct H as [H | H]; try discriminate H;
             contradiction.
        -- intros (p & H & _ & Hw & _). injection H as <-. congruence.
    + split.
      * intros i. split.
        -- cbn. intros H. repeat destruct H as [H | H]; try discriminate H;
             contradiction.
        -- intros (p & H & _ & _ & Hc). injection H as <-. congruence.
      * intros title message. split.
        -- cbn. intros H. repeat destruct H as [H | H]; try discriminate H;
             contradiction.
        -- intros (p & H & _ & Hw & _). injection H as <-. congruence.
  - split.
    + intros i. split.
      * cbn. intros H. repeat destruct H as [H | H]; try discriminate H;
          contradiction.
      * intros (p & H & _ & Hw & _). injection H as <-. congruence.
    + intros title message. split.
      * cbn. intros H. repeat destruct H as [H | H]; try discriminate H;
          try contradiction.
        injection H as <- <-. exists path. tauto.
      * intros (p & H & _ & _ & -> & ->). injection H as <-. cbn. tauto.
  - split.
    + intros i. split.
      * cbn. intros H. repeat destruct H as [H | H]; try discriminate H;
          contradiction.
      * intros (p & H & _ & Hw & _). injection H as <-. congruence.
    + intros title message. split.
      * cbn. intros H. repeat destruct H as [H | H]; try discriminate H;
          contradiction.
      * intros (p & H & _ & Hw & _). injection H as <-. congruence.
Qed.

(* ================================================================== *)
(** * When a fulfilled batch returns *)

(** X12. [Promise.all] over the queued calls is fulfilled only once every
    call of the batch has settled: at that instant nothing is running and
    nothing waits, so a handler that returns results leaves no work
    behind. *)
Theorem fulfilled_only_when_all_settled (Res Err : Type)
  (task : string -> Settled Res Err)
  (c : nat) (items : list string) (b : Batch) (rs : list Res) :
  reachable (submitWith c items) b ->
  promiseAll task (length items) (settled b) = Done (Fulfilled rs) ->
  drained b /\ Permutation (settled b) (tasksFrom 0 items).
Proof.
  intros Hb Hall.
  assert (Hdrained : drained b); [|split; [exact Hdrained|]].
  2: exact (drained_all_settled_at _ _ _ Hb Hdrained).
  destruct (wellFormedAt_reachable _ _ _ Hb) as (_ & _ & Hf).
  apply fifo_partition in Hf.
  assert (Hnone : forall t, In t (queue (limiter b) ++ running (limiter b)) ->
                            False).
  { intros t0 Ht0.
    assert (Htask : In t0 (tasksFrom 0 items)).
    { apply (Permutation_in _ Hf). rewrite app_assoc.
      apply in_or_app. left. exact Ht0. }
    pose proof (proj1 (tasksOf_In _ _) Htask) as Hnth.
    unfold promiseAll in Hall.
    destruct (firstRejection task (settled b)); [discriminate|].
    destruct (collect task (settled b) (seq 0 (length items)))
      as [rs'|] eqn:Hc; [|discriminate].
    assert (Hslot : slot t0 < length items).
    { apply nth_error_Some. congruence. }
    assert (Hs : nth_error (seq 0 (length items)) (slot t0) = Some (slot t0)).
    { rewrite nth_error_seq. apply Nat.ltb_lt in Hslot. rewrite Hslot.
      reflexivity. }
    destruct (collect_nth _ _ _ _ _ _ _ _ Hc Hs) as (r & _ & Hv).
    destruct (valueAt_some _ _ _ _ _ _ Hv) as (t & Hin & Heq & _).
    pose proof (settled_at_tasks _ _ _ _ Hb Hin) as Ht.
    assert (t = t0).
    { destruct t as [s f], t0 as [s0 f0]. cbn in *. subst s.
      rewrite Hnth in Ht. congruence. }
    subst t.
    pose proof (Permutation_NoDup (Permutation_sym Hf)
                  (tasksFrom_NoDup 0 items)) as Hnd.
    rewrite app_assoc in Hnd.
    apply (proj1 (NoDup_count_occ task_eq_dec _)) with (x := t0) in Hnd.
    rewrite count_occ_app in Hnd.
    apply (count_occ_In task_eq_dec) in Ht0, Hin. lia. }
  unfold drained.
  destruct (queue (limiter b)) as [|t q].
  - destruct (running (limiter b)) as [|t r]; [split; reflexivity|].
    exfalso. apply (Hnone t). left. reflexivity.
  - exfalso. apply (Hnone t). left. reflexivity.
Qed.

Lemma fulfilled_only_when_all_settled_witness :
  drained {| limiter := {| concurrency := 2; queue := []; running := [] |};
             settled := [{| slot := 1; folder := "AddOns/Details" |};
                         {| slot := 0; folder := "AddOns/WeakAuras" |}] |}.
Proof.
  refine (proj1 (fulfilled_only_when_all_settled string FsError sampleScan 2
                   ["AddOns/WeakAuras"; "AddOns/Details"]%string
                   _ ["AddOns/WeakAuras"; "AddOns/Details"]%string _ _)).
  - apply (run_reachable [Start; Start; Settle 1; Settle 0]). reflexivity.
  - reflexivity.
Defined.
